(** * nowallet: the wallet synchronisation and transaction-construction engine

    A shallow embedding of [src/nowallet.py] (class [Wallet], the spend mode
    of [main] and the part of [Connection] they drive), with the properties
    of the specification stated and settled against it.

    Conventions of the embedding.
    - [decimal.Decimal] values ([balance], the [amount] of a spend) are exact
      rationals [Q]; equality on them is [Qeq].  Python's default decimal
      context keeps 28 significant digits, so the two agree on every amount a
      wallet can hold.
    - Python's [float] is IEEE 754 binary64, with the operations of the
      Standard Library's [SpecFloat].
    - Python exceptions are the [Raise] outcomes of the [result] monad; a
      state that an exception leaves half updated is not kept.
    - The Electrum server is a record of answers ([Server]) that stay the
      same during one operation; a request that fails in the transport is
      not modelled.  The key derivation and the transaction library
      (pycoin) are the interfaces [KeyTree] and [Pycoin].
    - The loop of [discover_keys], which waits on the server, takes a fuel
      argument; [consume_queue], which never returns, is run over a list of
      notifications. *)

From Stdlib Require Import ZArith QArith Qround List Lia SpecFloat Ascii String.
From stdpp Require Import base option list gmap strings sorting pretty.

Open Scope Z_scope.

(** ** Exceptions and the error monad *)

Inductive exn : Type :=
  | IndexError
  | AttributeError
  | OverflowError
  | AssertionError (msg : string)
  | ValueError (msg : string).

Inductive result (A : Type) : Type :=
  | Ok (a : A)
  | Raise (e : exn).
Arguments Ok {A} a.
Arguments Raise {A} e.

#[export] Instance result_ret : MRet result := fun A a => Ok a.
#[export] Instance result_bind : MBind result := fun A B f m =>
  match m with
  | Ok a => f a
  | Raise e => Raise e
  end.

Definition is_ok {A} (r : result A) : bool :=
  match r with Ok _ => true | Raise _ => false end.

(** ** Data model *)

Definition Address := string.
Definition TxId := string.
Definition Script := string.

(** One entry of [blockchain.address.get_history]. *)
Record HistoryItem : Type := { tx_hash : TxId; height : Z }.

(** One entry of [blockchain.address.listunspent]. *)
Record Unspent : Type := { u_tx_hash : TxId; u_tx_pos : nat; u_value : Z }.

Record TxIn : Type := {
  previous_hash : TxId;
  previous_index : nat;
  script_sig : string }.

Record TxOut : Type := { coin_value : Q; script : Script }.

(** pycoin's [Spendable]: an output together with the place it sits at. *)
Record Spendable : Type := {
  sp_coin_value : Q;
  sp_script : Script;
  sp_tx_hash : TxId;
  sp_tx_out_index : nat }.

Record Tx : Type := {
  version : Z;
  txs_in : list TxIn;
  txs_out : list TxOut;
  unspents : list Spendable }.

(** A key object: which root it hangs from and its index. *)
Record Key : Type := { key_change : bool; key_index : nat }.

(** The key derivation of [keys.derive_key] and [BIP32Node]. *)
Class KeyTree : Type := {
  address : Key -> Address;
  wif : Key -> string }.

(** What [mktx] and [spend] call in pycoin. *)
Class Pycoin : Type := {
  standard_tx_out_script : Address -> Script;
  spendable_address : Spendable -> Address;
  tx_id : Tx -> TxId;
  stream_length : Tx -> Z;
  distribute_from_split_pool : Tx -> Z -> result Tx;
  sign_tx : Tx -> list string -> result Tx }.

(** [Wallet._COIN] and [Wallet._GAP_LIMIT]. *)
Definition _COIN : Z := 100000000.
Definition _GAP_LIMIT : nat := 20.

Record Wallet : Type := {
  balance : Q;
  spend_indicies : list bool;
  change_indicies : list bool;
  utxos : list Spendable;
  history : gmap Address (list Tx);
  new_history : bool }.

(** [Wallet.__init__]. *)
Definition new_wallet : Wallet :=
  {| balance := 0;
     spend_indicies := [];
     change_indicies := [];
     utxos := [];
     history := ∅;
     new_history := false |}.

(** [self.change_indicies if change else self.spend_indicies]. *)
Definition indicies (w : Wallet) (change : bool) : list bool :=
  if change then change_indicies w else spend_indicies w.

(** Assignments to the fields of [self]. *)
Definition set_indicies (change : bool) (l : list bool) (w : Wallet) : Wallet :=
  if change
  then {| balance := balance w; spend_indicies := spend_indicies w;
          change_indicies := l; utxos := utxos w; history := history w;
          new_history := new_history w |}
  else {| balance := balance w; spend_indicies := l;
          change_indicies := change_indicies w; utxos := utxos w;
          history := history w; new_history := new_history w |}.

Definition set_balance (b : Q) (w : Wallet) : Wallet :=
  {| balance := b; spend_indicies := spend_indicies w;
     change_indicies := change_indicies w; utxos := utxos w;
     history := history w; new_history := new_history w |}.

Definition set_utxos (l : list Spendable) (w : Wallet) : Wallet :=
  {| balance := balance w; spend_indicies := spend_indicies w;
     change_indicies := change_indicies w; utxos := l;
     history := history w; new_history := new_history w |}.

Definition set_history (h : gmap Address (list Tx)) (w : Wallet) : Wallet :=
  {| balance := balance w; spend_indicies := spend_indicies w;
     change_indicies := change_indicies w; utxos := utxos w;
     history := h; new_history := new_history w |}.

Definition set_new_history (b : bool) (w : Wallet) : Wallet :=
  {| balance := balance w; spend_indicies := spend_indicies w;
     change_indicies := change_indicies w; utxos := utxos w;
     history := history w; new_history := b |}.

(** The sum of the values of a list of outputs, as Python's [sum] takes it. *)
Definition sum_values (l : list Spendable) : Q :=
  fold_left Qplus (map sp_coin_value l) 0%Q.

(** ** Keys *)

(** [Wallet.get_key]. *)
Definition get_key (index : nat) (change : bool) : Key :=
  {| key_change := change; key_index := index |}.

(** [Wallet.get_next_unused_key]: the loop returns at the first entry that
    is not used; when it runs off the end the function returns [None]. *)
Definition get_next_unused_key (w : Wallet) (change : bool) : option Key :=
  match list_find (fun is_used : bool => is_used = false) (indicies w change) with
  | Some (i, _) => Some (get_key i change)
  | None => None
  end.

(** [Wallet.get_all_known_addresses]. *)
Definition get_all_known_addresses `{KeyTree} (w : Wallet) (change : bool)
  : list Address :=
  map (fun i => address (get_key i change)) (seq 0 (length (indicies w change))).

(** ** The server *)

(** Python's [float]. *)
Definition float : Type := spec_float.
Definition float_prec : Z := 53.
Definition float_emax : Z := 1024.
Definition float_of_Z (z : Z) : float := binary_normalize float_prec float_emax z 0 false.
Definition float_mul : float -> float -> float := SFmul float_prec float_emax.
Definition float_div : float -> float -> float := SFdiv float_prec float_emax.

(** The answers of an Electrum server to the requests the wallet sends. *)
Record Server : Type := {
  address_get_history : Address -> list HistoryItem;
  (** the field ["confirmed"] of [blockchain.address.get_balance] *)
  address_get_balance : Address -> Z;
  address_listunspent : Address -> list Unspent;
  (** the transaction [Tx.from_hex] reads from [blockchain.transaction.get] *)
  transaction_get : TxId -> Tx;
  estimatefee : Z -> float;
  transaction_broadcast : Tx -> TxId }.

Section WalletOperations.
Context {keys : KeyTree} {lib : Pycoin}.

(** [Tx.tx_outs_as_spendable]. *)
Definition tx_outs_as_spendable (tx : Tx) : list Spendable :=
  imap (fun i o => {| sp_coin_value := coin_value o; sp_script := script o;
                      sp_tx_hash := tx_id tx; sp_tx_out_index := i |})
       (txs_out tx).

(** [Wallet._get_history]. *)
Definition _get_history (srv : Server) (txids : list TxId) : list Tx :=
  map (transaction_get srv) txids.

(** [Wallet._get_balance]: [Decimal(str(confirmed)) / _COIN]. *)
Definition _get_balance (srv : Server) (addr : Address) : Q :=
  (inject_Z (address_get_balance srv addr) / inject_Z _COIN)%Q.

(** [Wallet._get_utxos]; [spendables[vout]] raises past the end. *)
Definition _get_utxos (srv : Server) (addr : Address) : result (list Spendable) :=
  mapM (fun unspent =>
          let spendables := tx_outs_as_spendable (transaction_get srv (u_tx_hash unspent)) in
          match spendables !! u_tx_pos unspent with
          | Some s => Ok s
          | None => Raise IndexError
          end)
       (address_listunspent srv addr).

(** ** Discovery *)

(** The body of the loop of [Wallet._interpret_history], for one answer. *)
Definition interpret_history_step (srv : Server) (change : bool)
    (st : Wallet * bool) (hist : list HistoryItem) : result (Wallet * bool) :=
  let '(w, is_empty) := st in
  match hist with
  | [] => Ok (set_indicies change (indicies w change ++ [false]) w, is_empty)
  | _ :: _ =>
      let addr := address (get_key (length (indicies w change)) change) in
      let txids := map tx_hash hist in
      let w := set_history (<[addr := _get_history srv txids]> (history w)) w in
      let w := set_balance (balance w + _get_balance srv addr)%Q w in
      us ← _get_utxos srv addr;
      let w := set_utxos (utxos w ++ us) w in
      Ok (set_indicies change (indicies w change ++ [true]) w, false)
  end.

Fixpoint interpret_history_loop (srv : Server) (change : bool)
    (histories : list (list HistoryItem)) (st : Wallet * bool)
  : result (Wallet * bool) :=
  match histories with
  | [] => Ok st
  | hist :: histories' =>
      st' ← interpret_history_step srv change st hist;
      interpret_history_loop srv change histories' st'
  end.

(** [Wallet._interpret_history]: the wallet after the answers, and [is_empty]. *)
Definition _interpret_history (srv : Server) (histories : list (list HistoryItem))
    (change : bool) (w : Wallet) : result (Wallet * bool) :=
  interpret_history_loop srv change histories (w, true).

(** The [while not quit_flag] loop of [Wallet.discover_keys]; [None] when
    [fuel] windows have been scanned and the loop is still running. *)
Fixpoint discover_keys_loop (fuel : nat) (srv : Server) (change : bool)
    (current_index : nat) (w : Wallet) : option (result Wallet) :=
  match fuel with
  | O => None
  | S fuel' =>
      let futures :=
        map (fun i => address_get_history srv (address (get_key i change)))
            (seq current_index _GAP_LIMIT) in
      match _interpret_history srv futures change w with
      | Raise e => Some (Raise e)
      | Ok (w', quit_flag) =>
          if quit_flag then Some (Ok w')
          else discover_keys_loop fuel' srv change (current_index + _GAP_LIMIT) w'
      end
  end.

(** [Wallet.discover_keys]. *)
Definition discover_keys (fuel : nat) (srv : Server) (change : bool) (w : Wallet)
  : option (result Wallet) :=
  match discover_keys_loop fuel srv change 0 w with
  | Some (Ok w') => Some (Ok (set_new_history true w'))
  | r => r
  end.

(** ** Live synchronisation *)

(** [Wallet._interpret_new_history].  [history] is the entry
    [dispatch_result] hands over; [None] stands for a value Python takes
    as false. *)
Definition _interpret_new_history (srv : Server) (addr : Address)
    (history_item : option HistoryItem) (change : bool) (w : Wallet)
  : result (Wallet * bool) :=
  match history_item with
  | None => Ok (w, true)
  | Some item =>
      let txid := tx_hash item in
      let new_history := _get_history srv [txid] in
      let w :=
        match history w !! addr with
        | Some old => set_history (<[addr := old ++ new_history]> (history w)) w
        | None => set_history (<[addr := new_history]> (history w)) w
        end in
      let w := set_balance (balance w + _get_balance srv addr)%Q w in
      us ← _get_utxos srv addr;
      let w := set_utxos (utxos w ++ us) w in
      let w :=
        match list_find (fun i => address (get_key i change) = addr)
                        (seq 0 (length (indicies w change))) with
        | Some (_, i) => set_indicies change (<[i := true]> (indicies w change)) w
        | None => set_indicies change (indicies w change ++ [true]) w
        end in
      Ok (w, false)
  end.

(** [Wallet.dispatch_result] for the notification of [addr]; [history[0]]
    raises on an empty answer. *)
Definition dispatch_result (srv : Server) (addr : Address) (w : Wallet)
  : result Wallet :=
  match address_get_history srv addr with
  | [] => Raise IndexError
  | item :: _ =>
      match _interpret_new_history srv addr (Some item) false w with
      | Raise e => Raise e
      | Ok (w, empty_flag) =>
          Ok (if empty_flag then w else set_new_history true w)
      end
  end.

(** [Connection]: the subscriptions sent, in order, and the subscription
    whose queue [self.queue] is bound to (the latest one). *)
Record Connection : Type := {
  subscribed : list Address;
  queue : option Address }.

(** [Connection.__init__] leaves [self.queue = None]. *)
Definition new_connection : Connection := {| subscribed := []; queue := None |}.

(** [Connection.listen_subscribe]. *)
Definition listen_subscribe (c : Connection) (addr : Address) : Connection :=
  {| subscribed := subscribed c ++ [addr]; queue := Some addr |}.

(** [Connection.consume_queue] over the notifications [events] (each with
    the server's answers at that time): the wallet after the last of them. *)
Fixpoint consume_queue (events : list (Server * Address)) (w : Wallet)
  : result Wallet :=
  match events with
  | [] => Ok w
  | (srv, addr) :: events' =>
      w' ← dispatch_result srv addr w;
      consume_queue events' w'
  end.

(** [Wallet.listen_to_addresses]: the connection as it is when
    [consume_queue] is entered, and the wallet after [events]. *)
Definition listen_to_addresses (c : Connection) (events : list (Server * Address))
    (w : Wallet) : Connection * result Wallet :=
  let addrs := get_all_known_addresses w false in
  let c := fold_left listen_subscribe addrs c in
  (c, match queue c with
      | None => Raise AttributeError
      | Some _ => consume_queue events w
      end).

(** ** Canonical ordering *)

(** Python's [list.sort]: a stable sort that compares with [__lt__] only. *)
Fixpoint sort_insert {A} (lt : A -> A -> bool) (x : A) (l : list A) : list A :=
  match l with
  | [] => [x]
  | y :: l' => if lt y x then y :: sort_insert lt x l' else x :: l
  end.

Definition list_sort {A} (lt : A -> A -> bool) (l : list A) : list A :=
  foldr (sort_insert lt) [] l.

Definition lex_compare {A B} (cmpA : A -> A -> comparison)
    (cmpB : B -> B -> comparison) (x y : A * B) : comparison :=
  match cmpA x.1 y.1 with
  | Eq => cmpB x.2 y.2
  | c => c
  end.

Definition is_Lt (c : comparison) : bool :=
  match c with Lt => true | _ => false end.

(** Modelled from the spec: the comparison of [subclasses.LexSpendable]
    ([subclasses.py] is not among the sources), "lexicographic on the
    serialized input reference": the hash of the transaction, then the
    index of the output. *)
Definition LexSpendable_compare (a b : Spendable) : comparison :=
  lex_compare String.compare Nat.compare
    (sp_tx_hash a, sp_tx_out_index a) (sp_tx_hash b, sp_tx_out_index b).

Definition LexSpendable_lt (a b : Spendable) : bool :=
  is_Lt (LexSpendable_compare a b).

(** Modelled from the spec: the comparison of [subclasses.LexTxOut],
    "lexicographic on the ... output script+value": the script, then the
    value. *)
Definition LexTxOut_compare (a b : TxOut) : comparison :=
  lex_compare String.compare Qcompare
    (script a, coin_value a) (script b, coin_value b).

Definition LexTxOut_lt (a b : TxOut) : bool :=
  is_Lt (LexTxOut_compare a b).

(** [spendables.sort()] and [txs_out.sort()] in [mktx]. *)
Definition sort_spendables : list Spendable -> list Spendable :=
  list_sort LexSpendable_lt.
Definition sort_txs_out : list TxOut -> list TxOut :=
  list_sort LexTxOut_lt.

(** ** Building and sending a transaction *)

(** What [mktx] and [spend] ask of the server and of pycoin, in order. *)
Inductive call : Type :=
  | CallEstimateFee (blocks : Z)
  | CallDistribute (fee : Z)
  | CallSignTx
  | CallBroadcast.

(** A computation that may raise, with the calls it made. *)
Definition traced (A : Type) : Type := (list call * result A)%type.

#[export] Instance traced_ret : MRet traced := fun A a => ([], Ok a).
#[export] Instance traced_bind : MBind traced := fun A B f m =>
  match m with
  | (log, Ok a) => let '(log', r) := f a in (log ++ log', r)
  | (log, Raise e) => (log, Raise e)
  end.

Definition calling {A} (c : call) (r : result A) : traced A := ([c], r).
Definition untraced {A} (r : result A) : traced A := ([], r).

(** [int(x)] for a float: truncation, and an error for infinities and NaN. *)
Definition int_of_float (x : float) : result Z :=
  match x with
  | S754_zero _ => Ok 0
  | S754_finite s m e =>
      let a := Z.shiftl (Z.pos m) e in
      Ok (if s then - a else a)
  | S754_infinity _ => Raise OverflowError
  | S754_nan => Raise (ValueError "cannot convert float NaN to integer")
  end.

(** The float [get_fee] hands to [int]:
    [(tx_kb_count * coin_per_kb) * self._COIN]. *)
Definition fee_float (srv : Server) (tx : Tx) : float :=
  let tx_kb_count := float_div (float_of_Z (stream_length tx)) (float_of_Z 1024) in
  let coin_per_kb := estimatefee srv 6 in
  float_mul (float_mul tx_kb_count coin_per_kb) (float_of_Z _COIN).

(** [Wallet.get_fee]. *)
Definition get_fee (srv : Server) (tx : Tx) : traced Z :=
  calling (CallEstimateFee 6) (int_of_float (fee_float srv tx)).

Definition Qltb (x y : Q) : bool := is_Lt (x ?= y)%Q.

(** The body of the coin selection loop of [mktx]. *)
Definition select_step (amount : Q)
    (st : list Spendable * list Address * Q) (utxo : Spendable)
  : list Spendable * list Address * Q :=
  let '(spendables, in_addrs, total_out) := st in
  if Qltb total_out amount
  then (spendables ++ [utxo], in_addrs ++ [spendable_address utxo],
        (total_out + sp_coin_value utxo)%Q)
  else st.

Definition select_coins (l : list Spendable) (amount : Q)
  : list Spendable * list Address * Q :=
  fold_left (select_step amount) l ([], [], 0%Q).

(** [Spendable.tx_in]. *)
Definition tx_in (s : Spendable) : TxIn :=
  {| previous_hash := sp_tx_hash s; previous_index := sp_tx_out_index s;
     script_sig := "" |}.

(** The export strings of the keys whose address is among [in_addrs]. *)
Definition wifs_of (w : Wallet) (in_addrs : list Address) : list string :=
  flat_map (fun change =>
    flat_map (fun i =>
      let key := get_key i change in
      if bool_decide (address key ∈ in_addrs) then [wif key] else [])
      (seq 0 (length (indicies w change))))
    [true; false].

(** [Wallet.mktx] (with [version=1], as [spend] calls it). *)
Definition mktx (srv : Server) (w : Wallet) (out_addr : Address) (amount : Q)
  : traced Tx :=
  let amount := (amount * inject_Z _COIN)%Q in
  let '(spendables, in_addrs, total_out) := select_coins (utxos w) amount in
  change_key ← untraced (match get_next_unused_key w true with
                         | Some k => Ok k
                         | None => Raise AttributeError
                         end);
  let change_addr := address change_key in
  let payables := [(out_addr, amount); (change_addr, 0%Q)] in
  let wifs := wifs_of w in_addrs in
  let spendables := sort_spendables spendables in
  let txs_in := map tx_in spendables in
  let txs_out :=
    sort_txs_out
      (map (fun '(bitcoin_address, value) =>
              {| coin_value := value;
                 script := standard_tx_out_script bitcoin_address |})
           payables) in
  let tx := {| version := 1; txs_in := txs_in; txs_out := txs_out;
               unspents := spendables |} in
  fee ← get_fee srv tx;
  tx ← calling (CallDistribute fee) (distribute_from_split_pool tx fee);
  calling CallSignTx (sign_tx tx wifs).

(** [Wallet.spend]: the identifier the server answers, and the wallet. *)
Definition spend (srv : Server) (addr : Address) (amount : Q) (w : Wallet)
  : traced (TxId * Wallet) :=
  tx ← mktx srv w addr amount;
  txid ← calling CallBroadcast (Ok (transaction_broadcast srv tx));
  let w :=
    match history w !! addr with
    | Some old => set_history (<[addr := old ++ [tx]]> (history w)) w
    | None => set_history (<[addr := [tx]]> (history w)) w
    end in
  let w := set_balance (balance w - amount)%Q w in
  out ← untraced (match last (tx_outs_as_spendable tx) with
                  | Some out => Ok out
                  | None => Raise IndexError
                  end);
  let w := set_utxos (utxos w ++ [out]) w in
  mret (txid, set_new_history true w).

(** The spend mode of [main], after discovery: the two assertions, then
    [wallet.spend]. *)
Definition main_spend (srv : Server) (spend_addr : Address) (spend_amount : Q)
    (w : Wallet) : traced (TxId * Wallet) :=
  if bool_decide (spend_addr = "") || Qeq_bool spend_amount 0
  then untraced (Raise (AssertionError "Spend address and/or amount were blank"))
  else if Qle_bool spend_amount (balance w)
  then spend srv spend_addr spend_amount w
  else untraced (Raise (AssertionError "Insufficient funds")).

End WalletOperations.

(** ** A test bench

    Stand-ins for the key derivation, for pycoin and for the server, on
    which the operations above can be run. *)

Definition bench_keys : KeyTree :=
  {| address k := (if key_change k then "c" else "s") +:+ pretty (key_index k);
     wif k := (if key_change k then "wif-c" else "wif-s") +:+ pretty (key_index k) |}.

Definition Qsum (l : list Q) : Q := fold_left Qplus l 0%Q.

(** The split pool as pycoin's documentation describes it: what the inputs
    leave after the outputs and the fee goes to the outputs of value zero;
    an error when nothing is left for them. *)
Definition bench_distribute (tx : Tx) (fee : Z) : result Tx :=
  let is_zero (o : TxOut) := Qeq_bool (coin_value o) 0 in
  let zero_count := Z.of_nat (length (filter (fun o => is_zero o = true) (txs_out tx))) in
  if zero_count =? 0 then Ok tx
  else
    let total_coin_value := Qsum (map sp_coin_value (unspents tx)) in
    let coins_allocated := (Qsum (map coin_value (txs_out tx)) + inject_Z fee)%Q in
    let remaining_coins := (total_coin_value - coins_allocated)%Q in
    if Qltb remaining_coins 0
    then Raise (ValueError "insufficient inputs for outputs")
    else
      let value_each := Qfloor remaining_coins / zero_count in
      if value_each <? 1
      then Raise (ValueError "not enough to pay nonzero amounts to at least one of the unspecified outputs")
      else Ok {| version := version tx; txs_in := txs_in tx;
                 txs_out := map (fun o => if is_zero o
                                          then {| coin_value := inject_Z value_each;
                                                  script := script o |}
                                          else o) (txs_out tx);
                 unspents := unspents tx |}.

(** A name for a transaction, read off its inputs and outputs. *)
Definition bench_tx_id (tx : Tx) : TxId :=
  "tx(" +:+ String.concat "," (map (fun i => previous_hash i +:+ ":" +:+ pretty (previous_index i))
                                   (txs_in tx))
        +:+ ")(" +:+ String.concat "," (map script (txs_out tx)) +:+ ")".

Definition bench_pycoin : Pycoin :=
  {| standard_tx_out_script a := a;
     spendable_address s := sp_script s;
     tx_id := bench_tx_id;
     stream_length tx := 10 + 41 * Z.of_nat (length (txs_in tx))
                            + 34 * Z.of_nat (length (txs_out tx));
     distribute_from_split_pool := bench_distribute;
     sign_tx tx wifs :=
       Ok {| version := version tx;
             txs_in := map (fun i => {| previous_hash := previous_hash i;
                                        previous_index := previous_index i;
                                        script_sig := "signed" |}) (txs_in tx);
             txs_out := txs_out tx; unspents := unspents tx |} |}.

(** A transaction paying [value] to [addr] with its only output. *)
Definition funding_tx (addr : Address) (value : Z) : Tx :=
  {| version := 1; txs_in := [];
     txs_out := [{| coin_value := inject_Z value; script := addr |}];
     unspents := [] |}.

(** The double nearest to 0.0001, the rate the bench servers estimate. *)
Definition bench_rate : float := float_div (float_of_Z 1) (float_of_Z 10000).

(** A server that knows the addresses of [funded], each paid [value] by
    one transaction of its own, still unspent. *)
Definition bench_server (funded : list (Address * Z)) : Server :=
  let find addr := (list_to_map funded : gmap Address Z) !! addr in
  {| address_get_history addr :=
       match find addr with
       | Some value => [{| tx_hash := bench_tx_id (funding_tx addr value); height := 1 |}]
       | None => []
       end;
     address_get_balance addr :=
       match find addr with Some value => value | None => 0 end;
     address_listunspent addr :=
       match find addr with
       | Some value => [{| u_tx_hash := bench_tx_id (funding_tx addr value);
                           u_tx_pos := 0; u_value := value |}]
       | None => []
       end;
     transaction_get txid :=
       match list_find (fun f => bench_tx_id (funding_tx f.1 f.2) = txid) funded with
       | Some (_, (addr, value)) => funding_tx addr value
       | None => funding_tx "" 0
       end;
     estimatefee _ := bench_rate;
     transaction_broadcast tx := bench_tx_id tx |}.

(** The server of the specification's discovery example: of the spend
    chain, the addresses at 2 and 5 are used and no other. *)
Definition server_2_5 : Server :=
  bench_server [("s2", 100000000); ("s5", 50000000)].

(** A server on which no address has been used. *)
Definition server_unused : Server := bench_server [].

(** An output of value [v], for the examples. *)
Definition bench_coin (v : Q) : Spendable :=
  {| sp_coin_value := v; sp_script := "s0"; sp_tx_hash := "t";
     sp_tx_out_index := 0 |}.

(** ** Notions the properties are stated with *)

(** What the selection loop has built after the outputs [l]. *)
Definition selection_of {lib : Pycoin} (l : list Spendable) (amount : Q) (n : nat)
    (st : list Spendable * list Address * Q) : Prop :=
  st = (take n l, map spendable_address (take n l), sum_values (take n l)) /\
  (n <= length l)%nat /\
  (forall k, (k < n)%nat -> (sum_values (take k l) < amount)%Q) /\
  (n = length l \/ (amount <= sum_values (take n l))%Q).


Section Notions.
Context {keys : KeyTree} {lib : Pycoin}.

(** The server lists every unspent output at a position its transaction has. *)
Definition well_formed (srv : Server) : Prop :=
  forall addr, is_ok (_get_utxos srv addr) = true.

(** The confirmed balance the server reports for an address is the total
    of the outputs it lists as unspent for it. *)
Definition consistent (srv : Server) : Prop :=
  forall addr us,
    _get_utxos srv addr = Ok us ->
    (inject_Z (address_get_balance srv addr) == sum_values us)%Q.

(** The address at [i] of the chain has a history on the server. *)
Definition used (srv : Server) (change : bool) (i : nat) : bool :=
  match address_get_history srv (address (get_key i change)) with
  | [] => false
  | _ :: _ => true
  end.

(** No address of the window [j] (the indices from [20 j] to [20 j + 19])
    has a history. *)
Definition window_empty (srv : Server) (change : bool) (j : nat) : bool :=
  forallb (fun i => negb (used srv change i)) (seq (j * _GAP_LIMIT) _GAP_LIMIT).

(** The states discovery and live synchronisation lead to, from a new
    wallet and against consistent servers. *)
Inductive synced : Wallet -> Prop :=
  | synced_new : synced new_wallet
  | synced_discover w fuel srv change w' :
      synced w -> consistent srv ->
      discover_keys fuel srv change w = Some (Ok w') -> synced w'
  | synced_notify w srv addr w' :
      synced w -> consistent srv ->
      dispatch_result srv addr w = Ok w' -> synced w'.

(** The states any sequence of discovery, live synchronisation and spends
    leads to. *)
Inductive reachable : Wallet -> Prop :=
  | reachable_new : reachable new_wallet
  | reachable_discover w fuel srv change w' :
      reachable w -> consistent srv ->
      discover_keys fuel srv change w = Some (Ok w') -> reachable w'
  | reachable_notify w srv addr w' :
      reachable w -> consistent srv ->
      dispatch_result srv addr w = Ok w' -> reachable w'
  | reachable_spend w srv addr amount txid w' :
      reachable w ->
      (spend srv addr amount w).2 = Ok (txid, w') -> reachable w'.

End Notions.

(** The wallet of the examples: both chains discovered on [server_2_5]. *)
Definition bench_wallet : Wallet :=
  match @discover_keys bench_keys bench_pycoin 2 server_2_5 false new_wallet with
  | Some (Ok w) =>
      match @discover_keys bench_keys bench_pycoin 1 server_2_5 true w with
      | Some (Ok w) => w
      | _ => new_wallet
      end
  | _ => new_wallet
  end.

(** A wallet that has discovered its spend chain on a server where nothing
    is used, and a server on which the address at 25 has since been paid. *)
Definition unused_wallet : Wallet :=
  match @discover_keys bench_keys bench_pycoin 1 server_unused false new_wallet with
  | Some (Ok w) => w
  | _ => new_wallet
  end.

Definition server_25 : Server := bench_server [("s25", 70000)].

(** The balance, in coins, is the total of the unspent outputs, in units of
    the hundred-millionth of a coin. *)
Definition balance_matches_utxos (w : Wallet) : Prop :=
  (balance w * inject_Z _COIN == sum_values (utxos w))%Q.

(** The rational a finite float stands for. *)
Definition float_value (x : float) : Q :=
  match x with
  | S754_finite s m e =>
      let sm := if s then Z.neg m else Z.pos m in
      if 0 <=? e then inject_Z (sm * 2 ^ e)
      else Qmake sm (2 ^ Z.to_pos (- e))
  | _ => 0%Q
  end.

Definition is_finite (x : float) : bool :=
  match x with
  | S754_zero _ | S754_finite _ _ _ => true
  | _ => false
  end.

(** A rational cut to an integer, toward zero. *)
Definition Qtruncate (q : Q) : Z := Z.quot (Qnum q) (Z.pos (Qden q)).

(** The bench library with transactions that all stream to [size] bytes, a
    server that estimates [rate], and an empty transaction. *)
Definition sized_pycoin (size : Z) : Pycoin :=
  {| standard_tx_out_script := @standard_tx_out_script bench_pycoin;
     spendable_address := @spendable_address bench_pycoin;
     tx_id := bench_tx_id;
     stream_length _ := size;
     distribute_from_split_pool := bench_distribute;
     sign_tx := @sign_tx bench_pycoin |}.

Definition rate_server (rate : float) : Server :=
  {| address_get_history := address_get_history server_2_5;
     address_get_balance := address_get_balance server_2_5;
     address_listunspent := address_listunspent server_2_5;
     transaction_get := transaction_get server_2_5;
     estimatefee _ := rate;
     transaction_broadcast := transaction_broadcast server_2_5 |}.

Definition empty_tx : Tx :=
  {| version := 1; txs_in := []; txs_out := []; unspents := [] |}.

(** The stored outputs run out before their running total reaches
    [amount]. *)
Definition exhausted (l : list Spendable) (amount : Q) : Prop :=
  forall k, (k <= length l)%nat -> (sum_values (take k l) < amount)%Q.

(** The transaction [mktx] has assembled when it asks for the fee: the
    selected outputs as inputs, in canonical order, and the two outputs,
    the change still at zero. *)
Definition unsigned_tx {keys : KeyTree} {lib : Pycoin} (w : Wallet)
    (out_addr : Address) (amount : Q) (change_key : Key) : Tx :=
  let amount := (amount * inject_Z _COIN)%Q in
  let spendables := sort_spendables (select_coins (utxos w) amount).1.1 in
  {| version := 1;
     txs_in := map tx_in spendables;
     txs_out :=
       sort_txs_out
         [{| coin_value := amount; script := standard_tx_out_script out_addr |};
          {| coin_value := 0; script := standard_tx_out_script (address change_key) |}];
     unspents := spendables |}.

(** The library's split pool refuses a transaction with an output at zero
    whose inputs do not cover its outputs and the fee. *)
Definition checks_funds {lib : Pycoin} : Prop :=
  forall tx fee,
    Exists (fun o => coin_value o == 0)%Q (txs_out tx) ->
    (Qsum (map sp_coin_value (unspents tx))
     < Qsum (map coin_value (txs_out tx)) + inject_Z fee)%Q ->
    is_ok (distribute_from_split_pool tx fee) = false.

(** A server like [server_2_5] that has no estimate to give: it answers -1. *)
Definition server_no_estimate : Server := rate_server (float_of_Z (-1)).

(** [a] does not come after [b], for an order given by its [__lt__]. *)
Definition not_after {A} (lt : A -> A -> bool) (a b : A) : Prop := lt b a = false.

(** The two outputs of a transaction that pays 1.55 to ["dest"], as [mktx]
    orders them. *)
Definition bench_outputs : list TxOut :=
  [{| coin_value := 10625000; script := "c0" |};
   {| coin_value := 155000000; script := "dest" |}].

(** ** More of the wallet *)

(** [Chain], [BTC] and [TBTC]. *)
Record Chain : Type := {
  netcode : string;
  chain_1209k : string;
  bip44 : Z }.

Definition BTC : Chain := {| netcode := "BTC"; chain_1209k := "btc"; bip44 := 0 |}.
Definition TBTC : Chain := {| netcode := "XTN"; chain_1209k := "tbtc"; bip44 := 1 |}.

(** The paths [Wallet.__init__] derives its two roots from:
    ["44H/{}H/{}H/".format(chain.bip44, account)], then ["{}0"] and ["{}1"]. *)
Definition account_path (chain : Chain) (account : Z) : string :=
  "44H/" +:+ pretty (bip44 chain) +:+ "H/" +:+ pretty account +:+ "H/".

Definition root_spend_path (chain : Chain) (account : Z) : string :=
  account_path chain account +:+ "0".

Definition root_change_path (chain : Chain) (account : Z) : string :=
  account_path chain account +:+ "1".

(** [Wallet.get_all_used_addresses]: the keys of [self.history].  (A
    Python dictionary lists its keys in the order they were inserted; the
    map of the model does not keep that order.) *)
Definition get_all_used_addresses (w : Wallet) : list Address :=
  (map_to_list (history w)).*1.

(** What [Wallet.__str__] prints of the parts of the wallet. *)
Class Repr : Type := {
  hwif : string;
  repr_history : gmap Address (list Tx) -> string;
  repr_utxos : list Spendable -> string;
  str_decimal : Q -> string;
  upper : string -> string }.

(** The line feed of Python's ["\n"]. *)
Definition nl : string := String (ascii_of_nat 10) EmptyString.

(** [Wallet.__str__]. *)
Definition wallet_str {keys : KeyTree} {repr : Repr} (chain : Chain) (w : Wallet)
  : result string :=
  let str_ := [nl +:+ "XPUB: " +:+ hwif] in
  let str_ := str_ ++ [nl +:+ "History:" +:+ nl +:+ repr_history (history w)] in
  let str_ := str_ ++ [nl +:+ "UTXOS:" +:+ nl +:+ repr_utxos (utxos w)] in
  let str_ := str_ ++ [nl +:+ "Balance: " +:+ str_decimal (balance w) +:+ " "
                          +:+ upper (chain_1209k chain)] in
  match get_next_unused_key w false with
  | None => Raise AttributeError
  | Some key =>
      let str_ := str_ ++ [nl +:+ "Your current address: " +:+ address key] in
      Ok (String.concat "" str_)
  end.

(** One turn of the loop of [print_loop], after its sleep: what it prints
    and the wallet it leaves. *)
Definition print_loop_turn {keys : KeyTree} {repr : Repr} (chain : Chain)
    (w : Wallet) : result (list string * Wallet) :=
  if new_history w then
    s ← wallet_str chain w;
    Ok ([s], set_new_history false w)
  else Ok ([], w).

(** The two discoveries of [main]: the spend chain, then the change chain. *)
Definition main_discover {keys : KeyTree} {lib : Pycoin} (fuel : nat)
    (srv : Server) (w : Wallet) : option (result Wallet) :=
  match discover_keys fuel srv false w with
  | Some (Ok w) => discover_keys fuel srv true w
  | r => r
  end.

(** One operation of the wallet that returns. *)
Inductive wallet_step {keys : KeyTree} {lib : Pycoin} : Wallet -> Wallet -> Prop :=
  | step_discover fuel srv change w w' :
      discover_keys fuel srv change w = Some (Ok w') -> wallet_step w w'
  | step_notify srv addr w w' :
      dispatch_result srv addr w = Ok w' -> wallet_step w w'
  | step_spend srv addr amount txid w w' :
      (spend srv addr amount w).2 = Ok (txid, w') -> wallet_step w w'.

(** The states discovery alone leads to, from a new wallet. *)
Inductive discovered {keys : KeyTree} {lib : Pycoin} : Wallet -> Prop :=
  | discovered_new : discovered new_wallet
  | discovered_step fuel srv change w w' :
      discovered w ->
      discover_keys fuel srv change w = Some (Ok w') -> discovered w'.

(** The used addresses are those of the entries that are [True]. *)
Definition history_matches_tables {keys : KeyTree} (w : Wallet) : Prop :=
  forall addr,
    addr ∈ get_all_used_addresses w <->
    exists change i,
      indicies w change !! i = Some true /\ address (get_key i change) = addr.

(** ** Finding a server ([scrape.py], [get_random_onion]) *)

(** [sub in s] for two strings. *)
Fixpoint str_in (sub s : string) : bool :=
  String.prefix sub s ||
  match s with
  | EmptyString => false
  | String _ s' => str_in sub s'
  end.

(** The loop of [scrape_onion_servers] over the texts of the cells of the
    table, from the cell at [i] on.  [int] is Python's, [None] where it
    raises. *)
Fixpoint scrape_loop (int : string -> option Z) (table_data : list string)
    (i : nat) (tds : list string) (servers : list (string * Z))
  : result (list (string * Z)) :=
  match tds with
  | [] => Ok servers
  | td :: tds' =>
      if str_in ".onion" td then
        let host := td in
        match table_data !! (i + 1)%nat with
        | None => Raise IndexError
        | Some port_text =>
            match int port_text with
            | None => Raise (ValueError "invalid literal for int()")
            | Some port =>
                match table_data !! (i + 7)%nat with
                | None => Raise IndexError
                | Some status =>
                    let is_running := String.eqb status "open" in
                    scrape_loop int table_data (S i) tds'
                      (if is_running then servers ++ [(host, port)] else servers)
                end
            end
        end
      else scrape_loop int table_data (S i) tds' servers
  end.

(** [scrape_onion_servers], from the cells [soup.find_all("td")] found. *)
Definition scrape_onion_servers (int : string -> option Z)
    (table_data : list string) : result (list (string * Z)) :=
  scrape_loop int table_data 0 table_data [].

(** [get_random_onion], from the cells of the page scraped; [shuffle] is
    the order [random.shuffle] leaves the list in, and [pop] raises on an
    empty list. *)
Definition get_random_onion (shuffle : list (string * Z) -> list (string * Z))
    (int : string -> option Z) (table_data : list string)
  : result (string * Z) :=
  servers ← scrape_onion_servers int table_data;
  match servers with
  | [] => Raise (AssertionError "No electrum servers found!")
  | _ :: _ =>
      match last (shuffle servers) with
      | Some server => Ok server
      | None => Raise IndexError
      end
  end.

(** The cell at [i] names an onion host whose row reads port [port] and
    state open. *)
Definition open_row (int : string -> option Z) (table_data : list string)
    (i : nat) (host : string) (port : Z) : Prop :=
  table_data !! i = Some host /\
  str_in ".onion" host = true /\
  (exists port_text,
      table_data !! (i + 1)%nat = Some port_text /\ int port_text = Some port) /\
  table_data !! (i + 7)%nat = Some "open".

(** The cell at [i], if it names an onion host, has a port cell that reads
    as a number and a state cell. *)
Definition readable_row (int : string -> option Z) (table_data : list string)
    (i : nat) : Prop :=
  forall td,
    table_data !! i = Some td -> str_in ".onion" td = true ->
    (exists port_text port,
        table_data !! (i + 1)%nat = Some port_text /\ int port_text = Some port) /\
    is_Some (table_data !! (i + 7)%nat).

(** A string without the letter H. *)
Fixpoint no_H (s : string) : Prop :=
  match s with
  | EmptyString => True
  | String c s' => c <> "H"%char /\ no_H s'
  end.

(** A table of two servers, the second closed, and a reading of decimal
    numerals. *)
Definition bench_table : list string :=
  ["a.onion"; "50001"; ""; ""; ""; ""; ""; "open";
   "b.onion"; "50002"; ""; ""; ""; ""; ""; "closed"].

Definition bench_int (s : string) : option Z :=
  let digit (c : ascii) : option Z :=
    let n := Z.of_N (N_of_ascii c) in
    if (48 <=? n) && (n <=? 57) then Some (n - 48) else None in
  match s with
  | EmptyString => None
  | _ =>
      (fix go (s : string) (acc : Z) : option Z :=
         match s with
         | EmptyString => Some acc
         | String c s' =>
             match digit c with
             | Some d => go s' (10 * acc + d)
             | None => None
             end
         end) s 0
  end.

(** * Properties *)

(** ** The next unused key *)

Lemma get_next_unused_key_Some (w : Wallet) (change : bool) (i : nat) :
  get_next_unused_key w change = Some (get_key i change) <->
  indicies w change !! i = Some false /\
  forall j, (j < i)%nat -> indicies w change !! j = Some true.
Proof.
  unfold get_next_unused_key.
  destruct (list_find _ _) as [[k b]|] eqn:E.
  - apply list_find_Some in E as (Hk & -> & Hlt). split.
    + intros [= ->]. split; [done|]. intros j Hj.
      destruct (lookup_lt_is_Some_2 (indicies w change) j) as [[] Hb].
      { apply lookup_lt_Some in Hk. lia. }
      * done.
      * by destruct (Hlt j false Hb Hj).
    + intros [Hi Hall]. f_equal. f_equal.
      destruct (Nat.lt_trichotomy i k) as [Hik|[->|Hik]]; [|done|].
      * by destruct (Hlt i false Hi Hik).
      * specialize (Hall k Hik). congruence.
  - split; [done|]. intros [Hi _].
    apply list_find_None in E. rewrite Forall_lookup in E.
    by destruct (E i false Hi).
Qed.

Lemma get_next_unused_key_None (w : Wallet) (change : bool) :
  get_next_unused_key w change = None <->
  Forall (fun is_used => is_used = true) (indicies w change).
Proof.
  unfold get_next_unused_key.
  destruct (list_find _ _) as [[k b]|] eqn:E.
  - split; [done|]. intros Hall.
    apply list_find_Some in E as (Hk & -> & _).
    rewrite Forall_lookup in Hall. by specialize (Hall k false Hk).
  - split; [|done]. intros _.
    apply list_find_None in E. eapply Forall_impl; [exact E|].
    by intros [] ?.
Qed.

(** C3.  When every entry of the chain's table is [True] (and so also for
    the empty table of a new wallet) [get_next_unused_key] runs off the end
    of its loop and returns [None]: no key, where the specification asks
    for the key one past the end of the table. *)
Theorem get_next_unused_key_all_used (w : Wallet) (change : bool) :
  Forall (fun is_used => is_used = true) (indicies w change) ->
  get_next_unused_key w change = None.
Proof. apply get_next_unused_key_None. Qed.

Lemma get_next_unused_key_all_used_witness :
  get_next_unused_key (set_indicies true [true] new_wallet) true = None /\
  get_next_unused_key new_wallet true = None.
Proof.
  split; apply get_next_unused_key_all_used; simpl; by repeat constructor.
Defined.

(** ** Coin selection *)

Section CoinSelection.
Context {lib : Pycoin}.

Lemma sum_values_snoc (l : list Spendable) (u : Spendable) :
  sum_values (l ++ [u]) = (sum_values l + sp_coin_value u)%Q.
Proof. unfold sum_values. by rewrite map_app, fold_left_app. Qed.

Lemma Qltb_lt (x y : Q) : Qltb x y = true <-> (x < y)%Q.
Proof.
  unfold Qltb, is_Lt. rewrite Qlt_alt.
  destruct (x ?= y)%Q; split; congruence.
Qed.

Lemma Qltb_ge (x y : Q) : Qltb x y = false <-> (y <= x)%Q.
Proof.
  rewrite <- not_true_iff_false, Qltb_lt. split.
  - apply Qnot_lt_le.
  - apply Qle_not_lt.
Qed.

Lemma select_coins_selection (l : list Spendable) (amount : Q) :
  exists n, selection_of l amount n (select_coins l amount).
Proof.
  unfold select_coins. induction l as [|u l IH] using rev_ind.
  - exists 0%nat. repeat split; simpl; auto. intros; lia.
  - rewrite fold_left_app. simpl.
    destruct IH as (n & -> & Hn & Hlt & Hstop). unfold select_step.
    destruct (Qltb (sum_values (take n l)) amount) eqn:E.
    + assert (n = length l) as ->.
      { destruct Hstop as [|Hge]; [done|].
        apply Qltb_lt in E. by apply Qle_not_lt in Hge. }
      exists (S (length l)). rewrite !firstn_all. unfold selection_of.
      replace (take (S (length l)) (l ++ [u])) with (l ++ [u])
        by (rewrite take_ge; [done|rewrite length_app; simpl; lia]).
      rewrite map_app, sum_values_snoc. repeat split.
      * rewrite length_app. simpl. lia.
      * intros k Hk. rewrite take_app_le by lia.
        destruct (decide (k = length l)) as [->|].
        -- rewrite firstn_all in E |- *. by apply Qltb_lt.
        -- apply Hlt. lia.
      * left. rewrite length_app. simpl. lia.
    + exists n. unfold selection_of. rewrite take_app_le by lia. repeat split.
      * rewrite length_app. lia.
      * intros k Hk. rewrite take_app_le by lia. by apply Hlt.
      * right. by apply Qltb_ge.
Qed.

End CoinSelection.

(** C4.  Coin selection walks the stored outputs in order and takes each
    one as long as the total taken so far is below the amount: what it has
    selected is the shortest prefix of the list whose total reaches the
    amount, or the whole list when none does.  For the values 3, 5, 2 and
    the amount 6 it is the first two outputs. *)
Theorem select_coins_in_storage_order {lib : Pycoin} :
  (forall (l : list Spendable) (amount : Q),
      exists n,
        (select_coins l amount).1.1 = take n l /\
        (select_coins l amount).2 = sum_values (take n l) /\
        (forall k, (k < n)%nat -> (sum_values (take k l) < amount)%Q) /\
        (n = length l \/ (amount <= sum_values (take n l))%Q)) /\
  (forall u3 u5 u2 : Spendable,
      sp_coin_value u3 = 3%Q -> sp_coin_value u5 = 5%Q -> sp_coin_value u2 = 2%Q ->
      (select_coins [u3; u5; u2] 6).1.1 = [u3; u5]).
Proof.
  split.
  - intros l amount.
    destruct (select_coins_selection l amount) as (n & -> & _ & Hlt & Hstop).
    by exists n.
  - intros u3 u5 u2 H3 H5 H2. unfold select_coins. simpl.
    unfold select_step. simpl. rewrite H3. simpl. rewrite H5. by simpl.
Qed.

Lemma select_coins_in_storage_order_witness :
  (@select_coins bench_pycoin [bench_coin 3; bench_coin 5; bench_coin 2] 6).1.1
  = [bench_coin 3; bench_coin 5].
Proof.
  exact (proj2 (@select_coins_in_storage_order bench_pycoin)
               (bench_coin 3) (bench_coin 5) (bench_coin 2)
               eq_refl eq_refl eq_refl).
Defined.

(** ** Live synchronisation *)

Section LiveSync.
Context {keys : KeyTree} {lib : Pycoin}.

Lemma indicies_set_indicies (change : bool) (l : list bool) (w : Wallet) :
  indicies (set_indicies change l w) change = l.
Proof. by destruct change. Qed.

Lemma indicies_set_indicies_other (change : bool) (l : list bool) (w : Wallet) :
  indicies (set_indicies change l w) (negb change) = indicies w (negb change).
Proof. by destruct change. Qed.

Lemma utxos_set_indicies (change : bool) (l : list bool) (w : Wallet) :
  utxos (set_indicies change l w) = utxos w.
Proof. by destruct change. Qed.

Lemma balance_set_indicies (change : bool) (l : list bool) (w : Wallet) :
  balance (set_indicies change l w) = balance w.
Proof. by destruct change. Qed.

(** The table after [_interpret_new_history] has taken a history entry. *)
Lemma interpret_new_history_table (srv : Server) (addr : Address)
    (item : HistoryItem) (change : bool) (w : Wallet) (us : list Spendable) :
  _get_utxos srv addr = Ok us ->
  exists w',
    _interpret_new_history srv addr (Some item) change w = Ok (w', false) /\
    utxos w' = utxos w ++ us /\
    balance w' = (balance w + _get_balance srv addr)%Q /\
    indicies w' (negb change) = indicies w (negb change) /\
    indicies w' change =
      match list_find (fun i => address (get_key i change) = addr)
                      (seq 0 (length (indicies w change))) with
      | Some (_, i) => <[i := true]> (indicies w change)
      | None => indicies w change ++ [true]
      end.
Proof.
  intros Hus. unfold _interpret_new_history. rewrite Hus. simpl.
  eexists. split; [reflexivity|].
  destruct (history w !! addr); simpl;
    destruct (list_find _ _) as [[? i]|]; simpl;
    rewrite ?indicies_set_indicies, ?utxos_set_indicies, ?balance_set_indicies;
    repeat split; by destruct change.
Qed.

Lemma list_find_seq_Some (P : nat -> Prop) `{forall i, Decision (P i)} (n k i : nat) :
  list_find P (seq 0 n) = Some (k, i) <->
  k = i /\ (i < n)%nat /\ P i /\ forall j, (j < i)%nat -> ~ P j.
Proof.
  rewrite list_find_Some. split.
  - intros (Hk & HP & Hlt). apply lookup_seq in Hk as [-> Hk]. simpl in *.
    repeat split; auto. intros j Hj. apply (Hlt j j); [|done].
    apply lookup_seq. split; [done|lia].
  - intros (-> & Hi & HP & Hlt). repeat split; auto.
    + apply lookup_seq. by split.
    + intros j y Hj Hji. apply lookup_seq in Hj as [-> _]. by apply Hlt.
Qed.

Lemma list_find_seq_None (P : nat -> Prop) `{forall i, Decision (P i)} (n : nat) :
  list_find P (seq 0 n) = None <-> forall i, (i < n)%nat -> ~ P i.
Proof.
  rewrite list_find_None, Forall_forall. split.
  - intros Hall i Hi. apply Hall. apply elem_of_seq. lia.
  - intros Hall i Hi. apply Hall. apply elem_of_seq in Hi. lia.
Qed.

(** C9 (as the code has it).  A notification for an address with a
    non-empty history marks, in the table of the spend chain, the first
    index whose key has that address, and leaves the length of the table as
    it is; when no index of the table has the address, one [True] is
    appended at the end of the table, whatever the index of the address:
    the table grows by one entry and nothing is filled in between.  The
    table of the change chain is not touched. *)
Theorem dispatch_result_marks_table (srv : Server) (addr : Address) (w : Wallet)
    (item : HistoryItem) (rest : list HistoryItem) (us : list Spendable) :
  address_get_history srv addr = item :: rest ->
  _get_utxos srv addr = Ok us ->
  exists w',
    dispatch_result srv addr w = Ok w' /\
    change_indicies w' = change_indicies w /\
    (forall i,
        (i < length (spend_indicies w))%nat ->
        address (get_key i false) = addr ->
        (forall j, (j < i)%nat -> address (get_key j false) <> addr) ->
        spend_indicies w' = <[i := true]> (spend_indicies w) /\
        spend_indicies w' !! i = Some true /\
        length (spend_indicies w') = length (spend_indicies w)) /\
    ((forall i, (i < length (spend_indicies w))%nat ->
                address (get_key i false) <> addr) ->
     spend_indicies w' = spend_indicies w ++ [true] /\
     length (spend_indicies w') = S (length (spend_indicies w))).
Proof.
  intros Hhist Hus. unfold dispatch_result. rewrite Hhist.
  destruct (interpret_new_history_table srv addr item false w us Hus)
    as (w' & -> & _ & _ & Hother & Htable).
  simpl in Hother, Htable. exists (set_new_history true w'). simpl.
  split; [done|]. split; [done|]. rewrite Htable. split.
  - intros i Hi Haddr Hleast.
    destruct (list_find _ _) as [[k i']|] eqn:E.
    + apply list_find_seq_Some in E as (-> & Hi' & Haddr' & Hleast').
      assert (i' = i) as ->.
      { destruct (Nat.lt_trichotomy i i') as [Hlt|[->|Hlt]]; [|done|].
        - by destruct (Hleast' i Hlt).
        - by destruct (Hleast i' Hlt). }
      split; [done|]. split.
      * by apply list_lookup_insert_eq.
      * apply length_insert.
    + pose proof (proj1 (list_find_seq_None _ _) E i Hi). done.
  - intros Hnone.
    destruct (list_find _ _) as [[k i']|] eqn:E.
    + apply list_find_seq_Some in E as (-> & Hi' & Haddr' & _).
      by destruct (Hnone i' Hi').
    + split; [done|]. rewrite length_app. simpl. lia.
Qed.

(** ** Subscriptions *)

Lemma subscribed_fold_listen_subscribe (addrs : list Address) (c : Connection) :
  subscribed (fold_left listen_subscribe addrs c) = subscribed c ++ addrs.
Proof.
  revert c. induction addrs as [|a addrs IH]; intros c; simpl.
  - by rewrite app_nil_r.
  - rewrite IH. simpl. by rewrite <- app_assoc.
Qed.

(** C8 (as the code has it).  Before [listen_to_addresses] starts to
    consume notifications it has subscribed to the address of every index
    of the spend chain's table, used or not, in order, and to nothing
    else: the addresses of the change chain are not subscribed to. *)
Theorem listen_to_addresses_subscribes_spend_chain (c : Connection)
    (events : list (Server * Address)) (w : Wallet) :
  subscribed (listen_to_addresses c events w).1
  = subscribed c ++ map (fun i => address (get_key i false))
                        (seq 0 (length (spend_indicies w))) /\
  (forall i, (i < length (spend_indicies w))%nat ->
             address (get_key i false) ∈ subscribed (listen_to_addresses c events w).1) /\
  (forall addr,
      addr ∈ subscribed (listen_to_addresses c events w).1 ->
      addr ∈ subscribed c \/
      exists i, (i < length (spend_indicies w))%nat /\ addr = address (get_key i false)).
Proof.
  assert (subscribed (listen_to_addresses c events w).1
          = subscribed c ++ map (fun i => address (get_key i false))
                                (seq 0 (length (spend_indicies w)))) as Heq.
  { unfold listen_to_addresses. simpl.
    by rewrite subscribed_fold_listen_subscribe. }
  split; [exact Heq|]. split.
  - intros i Hi. rewrite Heq. apply elem_of_app. right.
    apply (list_elem_of_fmap_2 (fun i => address (get_key i false))).
    apply elem_of_seq. lia.
  - intros addr. rewrite Heq. intros [Hold|Hnew]%elem_of_app; [by left|].
    right. apply list_elem_of_fmap in Hnew as (i & -> & Hi).
    apply elem_of_seq in Hi. exists i. split; [lia|done].
Qed.

(** With no address known there is no subscription, [self.queue] is still
    [None] and [consume_queue] raises. *)
Lemma listen_to_addresses_no_address (c : Connection)
    (events : list (Server * Address)) (w : Wallet) :
  spend_indicies w = [] -> queue c = None ->
  listen_to_addresses c events w = (c, Raise AttributeError).
Proof.
  intros Hnone Hqueue. unfold listen_to_addresses, get_all_known_addresses.
  simpl. rewrite Hnone. simpl. by rewrite Hqueue.
Qed.

End LiveSync.

Lemma dispatch_result_marks_table_witness :
  exists w',
    @dispatch_result bench_keys bench_pycoin server_2_5 "s5" unused_wallet = Ok w' /\
    spend_indicies w' = <[5%nat := true]> (spend_indicies unused_wallet).
Proof.
  destruct (@dispatch_result_marks_table bench_keys bench_pycoin
              server_2_5 "s5" unused_wallet _ _ _ eq_refl eq_refl)
    as (w' & Hw' & _ & Hin & _).
  exists w'. split; [exact Hw'|].
  apply (Hin 5%nat); [vm_compute; lia|reflexivity|].
  intros j Hj.
  do 5 (destruct j as [|j]; [by vm_compute|]). lia.
Defined.

(** C9 as the specification states it fails: a notification for the
    address at index 25, with a table of 20 entries, appends one [True] at
    index 20; index 25 is not in the table afterwards. *)
Lemma dispatch_result_beyond_table :
  exists w',
    @dispatch_result bench_keys bench_pycoin server_25
      (@address bench_keys (get_key 25 false)) unused_wallet = Ok w' /\
    length (spend_indicies unused_wallet) = 20%nat /\
    spend_indicies w' = replicate 20 false ++ [true] /\
    spend_indicies w' !! 25%nat = None.
Proof. eexists. by vm_compute. Qed.

Lemma listen_to_addresses_no_address_witness :
  @listen_to_addresses bench_keys bench_pycoin new_connection [] new_wallet
  = (new_connection, Raise AttributeError).
Proof.
  by apply (@listen_to_addresses_no_address bench_keys bench_pycoin).
Defined.

(** C8 as the specification states it fails: the wallet knows 20 addresses
    of the change chain, and the first of them is not among the
    subscriptions. *)
Lemma listen_to_addresses_skips_change_chain :
  @address bench_keys (get_key 0 true)
    ∈ @get_all_known_addresses bench_keys bench_wallet true /\
  @address bench_keys (get_key 0 true)
    ∉ subscribed (@listen_to_addresses bench_keys bench_pycoin
                    new_connection [] bench_wallet).1.
Proof.
  split.
  - apply (bool_decide_unpack _). by vm_compute.
  - apply (bool_decide_unpack _). by vm_compute.
Qed.


(** ** Spending *)

Section Spend.
Context {keys : KeyTree} {lib : Pycoin}.

(** What a spend that returns has done to the wallet. *)
Lemma spend_Ok (srv : Server) (addr : Address) (amount : Q) (w w' : Wallet)
    (txid : TxId) :
  (spend srv addr amount w).2 = Ok (txid, w') ->
  exists tx out,
    (mktx srv w addr amount).2 = Ok tx /\
    txid = transaction_broadcast srv tx /\
    last (tx_outs_as_spendable tx) = Some out /\
    utxos w' = utxos w ++ [out] /\
    balance w' = (balance w - amount)%Q /\
    spend_indicies w' = spend_indicies w /\
    change_indicies w' = change_indicies w.
Proof.
  unfold spend. destruct (mktx srv w addr amount) as [log [tx|e]]; simpl.
  - destruct (last (tx_outs_as_spendable tx)) as [out|] eqn:Hlast; simpl.
    + intros [= <- <-]. exists tx, out.
      destruct (history w !! addr); simpl; by repeat split.
    + done.
  - done.
Qed.

Lemma select_coins_subseteq (l : list Spendable) (amount : Q) (u : Spendable) :
  u ∈ (select_coins l amount).1.1 -> u ∈ l.
Proof.
  destruct (select_coins_selection l amount) as (n & -> & _). simpl.
  intros Hu. by eapply subseteq_take.
Qed.

(** C10.  A spend that succeeds removes nothing from the list of unspent
    outputs: the list afterwards is the list before, in order, followed by
    one new element, the last output of the transaction built; so every
    output held before, the ones selected as inputs of the transaction
    among them, is still held. *)
Theorem spend_appends_last_output (srv : Server) (addr : Address) (amount : Q)
    (w w' : Wallet) (txid : TxId) :
  (spend srv addr amount w).2 = Ok (txid, w') ->
  (exists tx out,
      (mktx srv w addr amount).2 = Ok tx /\
      last (tx_outs_as_spendable tx) = Some out /\
      utxos w' = utxos w ++ [out]) /\
  (forall u, u ∈ utxos w -> u ∈ utxos w') /\
  (forall u, u ∈ (select_coins (utxos w) (amount * inject_Z _COIN)).1.1 ->
             u ∈ utxos w').
Proof.
  intros Hspend.
  destruct (spend_Ok _ _ _ _ _ _ Hspend) as (tx & out & Htx & _ & Hlast & Hutxos & _).
  split; [by exists tx, out|].
  assert (forall u, u ∈ utxos w -> u ∈ utxos w') as Hkeep.
  { intros u Hu. rewrite Hutxos. apply elem_of_app. by left. }
  split; [exact Hkeep|].
  intros u Hu. apply Hkeep. by eapply select_coins_subseteq.
Qed.

End Spend.

Lemma spend_appends_last_output_witness :
  exists txid w' out,
    (@spend bench_keys bench_pycoin server_2_5 "dest" (4 # 10) bench_wallet).2
    = Ok (txid, w') /\
    utxos w' = utxos bench_wallet ++ [out] /\
    length (utxos bench_wallet) = 2%nat.
Proof.
  destruct (@spend bench_keys bench_pycoin server_2_5 "dest" (4 # 10) bench_wallet)
    as [log [[txid w']|e]] eqn:E; [|by vm_compute in E].
  destruct (@spend_appends_last_output bench_keys bench_pycoin
              server_2_5 "dest" (4 # 10) bench_wallet w' txid)
    as ((tx & out & _ & _ & Hutxos) & _).
  { by rewrite E. }
  exists txid, w', out.
  split; [reflexivity|]. split; [exact Hutxos|by vm_compute].
Defined.

(** ** Discovery *)

Section Discovery.
Context {keys : KeyTree} {lib : Pycoin}.

Lemma forallb_fmap {A B} (f : B -> bool) (g : A -> B) (h : A -> bool)
    (l : list A) :
  (forall x, f (g x) = h x) -> forallb f (map g l) = forallb h l.
Proof.
  intros Hfg. induction l as [|x l IH]; simpl; [done|]. by rewrite IH, Hfg.
Qed.

(** One answer of a window: a new entry at the end of the chain's table. *)
Lemma interpret_history_step_table (srv : Server) (change : bool) (w : Wallet)
    (is_empty : bool) (hist : list HistoryItem) :
  well_formed srv ->
  exists w',
    interpret_history_step srv change (w, is_empty) hist
    = Ok (w', is_empty && match hist with [] => true | _ => false end) /\
    indicies w' change
    = indicies w change ++ [match hist with [] => false | _ => true end] /\
    indicies w' (negb change) = indicies w (negb change).
Proof.
  intros Hwf. destruct hist as [|item hist]; simpl.
  - eexists. rewrite andb_true_r. split; [reflexivity|].
    by destruct change.
  - specialize (Hwf (address (get_key (length (indicies w change)) change))).
    destruct (_get_utxos srv _) as [us|e]; [|done]. simpl.
    eexists. rewrite andb_false_r. split; [reflexivity|].
    by destruct change.
Qed.

Lemma interpret_history_loop_table (srv : Server) (change : bool)
    (histories : list (list HistoryItem)) (w : Wallet) (is_empty : bool) :
  well_formed srv ->
  exists w',
    interpret_history_loop srv change histories (w, is_empty)
    = Ok (w', is_empty
              && forallb (fun h => match h with [] => true | _ => false end) histories) /\
    indicies w' change
    = indicies w change
      ++ map (fun h => match h with [] => false | _ => true end) histories /\
    indicies w' (negb change) = indicies w (negb change).
Proof.
  intros Hwf. revert w is_empty.
  induction histories as [|hist histories IH]; intros w is_empty;
    cbn [interpret_history_loop forallb map].
  - exists w. by rewrite andb_true_r, app_nil_r.
  - destruct (interpret_history_step_table srv change w is_empty hist Hwf)
      as (w1 & -> & Htable1 & Hother1).
    cbn [mbind result_bind].
    destruct (IH w1 (is_empty && match hist with [] => true | _ => false end))
      as (w2 & -> & Htable2 & Hother2).
    exists w2. split; [by rewrite andb_assoc|].
    rewrite Htable2, Htable1, Hother2, Hother1. by rewrite <- app_assoc.
Qed.

(** One window of the scan: 20 new entries, and whether all were empty. *)
Lemma interpret_window (srv : Server) (change : bool) (j : nat) (w : Wallet) :
  well_formed srv ->
  exists w',
    _interpret_history srv
      (map (fun i => address_get_history srv (address (get_key i change)))
           (seq (j * _GAP_LIMIT) _GAP_LIMIT)) change w
    = Ok (w', window_empty srv change j) /\
    indicies w' change
    = indicies w change ++ map (used srv change) (seq (j * _GAP_LIMIT) _GAP_LIMIT) /\
    indicies w' (negb change) = indicies w (negb change).
Proof.
  intros Hwf. unfold _interpret_history.
  destruct (interpret_history_loop_table srv change
              (map (fun i => address_get_history srv (address (get_key i change)))
                   (seq (j * _GAP_LIMIT) _GAP_LIMIT)) w true Hwf)
    as (w' & -> & Htable & Hother).
  exists w'. split; [|split; [|done]].
  - f_equal. f_equal. rewrite andb_true_l. unfold window_empty, used.
    apply forallb_fmap. intros i.
    by destruct (address_get_history _ _).
  - rewrite Htable, map_map. f_equal.
Qed.

(** While no window is empty the scan goes on. *)
Lemma discover_keys_loop_running (srv : Server) (change : bool) (n j : nat)
    (w : Wallet) :
  well_formed srv ->
  (forall i, (i < n)%nat -> window_empty srv change (j + i) = false) ->
  discover_keys_loop n srv change (j * _GAP_LIMIT) w = None.
Proof.
  intros Hwf. revert j w. induction n as [|n IH]; intros j w Hfull; [done|].
  cbn [discover_keys_loop].
  destruct (interpret_window srv change j w Hwf) as (w' & -> & _).
  assert (window_empty srv change j = false) as ->
    by (rewrite <- (Nat.add_0_r j); apply Hfull; lia).
  replace (j * _GAP_LIMIT + _GAP_LIMIT)%nat with (S j * _GAP_LIMIT)%nat by lia.
  apply IH. intros i Hi. replace (S j + i)%nat with (j + S i)%nat by lia.
  apply Hfull. lia.
Qed.

(** The scan stops after the first empty window, and not before. *)
Lemma discover_keys_loop_halts (srv : Server) (change : bool) (k j fuel : nat)
    (w : Wallet) :
  well_formed srv ->
  (forall i, (i < k)%nat -> window_empty srv change (j + i) = false) ->
  window_empty srv change (j + k) = true ->
  (k < fuel)%nat ->
  exists w',
    discover_keys_loop fuel srv change (j * _GAP_LIMIT) w = Some (Ok w') /\
    indicies w' change
    = indicies w change
      ++ map (used srv change) (seq (j * _GAP_LIMIT) (S k * _GAP_LIMIT)) /\
    indicies w' (negb change) = indicies w (negb change).
Proof.
  intros Hwf. revert j fuel w.
  induction k as [|k IH]; intros j fuel w Hfull Hempty Hfuel;
    (destruct fuel as [|fuel]; [lia|]); cbn [discover_keys_loop];
    destruct (interpret_window srv change j w Hwf) as (w1 & -> & Htable1 & Hother1).
  - rewrite Nat.add_0_r in Hempty. rewrite Hempty.
    exists w1. split; [done|]. split; [|done].
    rewrite Htable1. do 2 f_equal; lia.
  - assert (window_empty srv change j = false) as ->
      by (rewrite <- (Nat.add_0_r j); apply Hfull; lia).
    replace (j * _GAP_LIMIT + _GAP_LIMIT)%nat with (S j * _GAP_LIMIT)%nat by lia.
    destruct (IH (S j) fuel w1) as (w2 & -> & Htable2 & Hother2).
    + intros i Hi. replace (S j + i)%nat with (j + S i)%nat by lia.
      apply Hfull. lia.
    + by replace (S j + k)%nat with (j + S k)%nat by lia.
    + lia.
    + exists w2. split; [done|]. rewrite Htable2, Htable1, Hother2, Hother1.
      split; [|done].
      replace (S j * _GAP_LIMIT)%nat with (j * _GAP_LIMIT + _GAP_LIMIT)%nat by lia.
      rewrite <- app_assoc, <- map_app, <- seq_app.
      do 3 f_equal; lia.
Qed.

(** C2.  Discovery scans the chain in windows of 20 indices.  As long as
    every window scanned had an address with a history it scans the next
    one; it stops after the first window in which every history is empty,
    and has then recorded an entry for each index of the windows scanned:
    [True] where the address has a history.  On a server where only the
    addresses at 2 and 5 have one, it stops with a table of 40 entries that
    is [True] at 2 and 5 and nowhere else. *)
Theorem discover_keys_gap_limit (srv : Server) (change : bool) (w : Wallet)
    (k : nat) :
  well_formed srv ->
  (forall j, (j < k)%nat -> window_empty srv change j = false) ->
  discover_keys k srv change w = None /\
  (window_empty srv change k = true ->
   forall fuel, (k < fuel)%nat ->
     exists w',
       discover_keys fuel srv change w = Some (Ok w') /\
       indicies w' change
       = indicies w change
         ++ map (used srv change) (seq 0 (S k * _GAP_LIMIT)) /\
       indicies w' (negb change) = indicies w (negb change)).
Proof.
  intros Hwf Hfull. unfold discover_keys. split.
  - change 0%nat with (0 * _GAP_LIMIT)%nat.
    by rewrite discover_keys_loop_running.
  - intros Hempty fuel Hfuel.
    destruct (discover_keys_loop_halts srv change k 0 fuel w Hwf Hfull Hempty Hfuel)
      as (w' & Hloop & Htable & Hother).
    change (0 * _GAP_LIMIT)%nat with 0%nat in Hloop, Htable. rewrite Hloop.
    exists (set_new_history true w'). by destruct change.
Qed.

End Discovery.

(** The bench servers answer every request about unspent outputs. *)
Lemma bench_server_well_formed (funded : list (Address * Z)) :
  @well_formed bench_pycoin (bench_server funded).
Proof.
  intros addr. unfold _get_utxos. simpl.
  destruct (_ !! addr) as [value|]; [|done]. simpl.
  by destruct (list_find _ funded) as [[? [? ?]]|].
Qed.

Lemma discover_keys_gap_limit_witness :
  @discover_keys bench_keys bench_pycoin 1 server_2_5 false new_wallet = None /\
  exists w',
    @discover_keys bench_keys bench_pycoin 2 server_2_5 false new_wallet
    = Some (Ok w') /\
    length (spend_indicies w') = 40%nat /\
    spend_indicies w' = <[2%nat := true]> (<[5%nat := true]> (replicate 40 false)) /\
    (forall i, spend_indicies w' !! i = Some true <-> i = 2%nat \/ i = 5%nat).
Proof.
  destruct (@discover_keys_gap_limit bench_keys bench_pycoin
              server_2_5 false new_wallet 1)
    as [Hrunning Hhalts].
  { apply bench_server_well_formed. }
  { intros j Hj. assert (j = 0%nat) as -> by lia. by vm_compute. }
  split; [exact Hrunning|].
  destruct (Hhalts eq_refl 2%nat) as (w' & Hw' & Htable & _); [lia|].
  exists w'. split; [exact Hw'|].
  assert (spend_indicies w'
          = <[2%nat := true]> (<[5%nat := true]> (replicate 40 false))) as Heq.
  { simpl in Htable. rewrite Htable. by vm_compute. }
  rewrite Heq. split; [done|]. split; [done|].
  intros i. split.
  - intros Hi. do 40 (destruct i as [|i]; [simpl in Hi; auto; discriminate|]).
    discriminate.
  - by intros [-> | ->].
Defined.

(** ** The balance and the unspent outputs *)

Lemma fold_left_Qplus (l : list Q) (a : Q) :
  (fold_left Qplus l a == a + fold_left Qplus l 0)%Q.
Proof.
  revert a. induction l as [|x l IH]; intros a; simpl.
  - ring.
  - rewrite (IH (a + x)%Q), (IH (0 + x)%Q). ring.
Qed.

Lemma sum_values_app (l1 l2 : list Spendable) :
  (sum_values (l1 ++ l2) == sum_values l1 + sum_values l2)%Q.
Proof.
  unfold sum_values. rewrite map_app, fold_left_app. apply fold_left_Qplus.
Qed.

Section Balance.
Context {keys : KeyTree} {lib : Pycoin}.

(** Taking in the balance and the unspent outputs of one address. *)
Lemma balance_matches_utxos_add (srv : Server) (addr : Address)
    (us : list Spendable) (w w' : Wallet) :
  consistent srv ->
  _get_utxos srv addr = Ok us ->
  balance w' = (balance w + _get_balance srv addr)%Q ->
  utxos w' = utxos w ++ us ->
  balance_matches_utxos w -> balance_matches_utxos w'.
Proof.
  unfold balance_matches_utxos. intros Hsrv Hus -> -> Hw.
  rewrite sum_values_app, <- Hw, <- (Hsrv addr us Hus).
  unfold _get_balance. field. discriminate.
Qed.

Lemma interpret_history_step_balance (srv : Server) (change : bool)
    (st st' : Wallet * bool) (hist : list HistoryItem) :
  consistent srv ->
  interpret_history_step srv change st hist = Ok st' ->
  balance_matches_utxos st.1 -> balance_matches_utxos st'.1.
Proof.
  intros Hsrv. destruct st as [w is_empty]. destruct hist as [|item hist]; simpl.
  - intros [= <-]. simpl. unfold balance_matches_utxos.
    by rewrite balance_set_indicies, utxos_set_indicies.
  - destruct (_get_utxos srv _) as [us|e] eqn:Hus; [|done]. simpl.
    intros [= <-]. simpl.
    eapply (balance_matches_utxos_add srv _ us w); eauto.
    + by rewrite balance_set_indicies.
    + by rewrite utxos_set_indicies.
Qed.

Lemma interpret_history_loop_balance (srv : Server) (change : bool)
    (histories : list (list HistoryItem)) (st st' : Wallet * bool) :
  consistent srv ->
  interpret_history_loop srv change histories st = Ok st' ->
  balance_matches_utxos st.1 -> balance_matches_utxos st'.1.
Proof.
  intros Hsrv. revert st.
  induction histories as [|hist histories IH]; intros st;
    cbn [interpret_history_loop].
  - by intros [= <-].
  - destruct (interpret_history_step srv change st hist) as [st1|e] eqn:Hstep;
      [|done].
    cbn [mbind result_bind]. intros Hloop Hst.
    apply (IH st1 Hloop). by eapply interpret_history_step_balance.
Qed.

Lemma discover_keys_balance (fuel : nat) (srv : Server) (change : bool)
    (w w' : Wallet) :
  consistent srv ->
  discover_keys fuel srv change w = Some (Ok w') ->
  balance_matches_utxos w -> balance_matches_utxos w'.
Proof.
  intros Hsrv. unfold discover_keys.
  destruct (discover_keys_loop fuel srv change 0 w) as [[w1|e]|] eqn:Hloop;
    [|done..].
  intros [= <-] Hw. change (balance_matches_utxos w1).
  revert Hloop Hw. generalize 0%nat. revert w.
  induction fuel as [|fuel IH]; intros w current_index; [done|].
  cbn [discover_keys_loop].
  destruct (_interpret_history srv _ change w) as [[w2 quit_flag]|e] eqn:Hwin;
    [|done].
  intros Hloop Hw.
  assert (balance_matches_utxos w2) as Hw2.
  { by eapply (interpret_history_loop_balance srv change _ (w, true) (w2, quit_flag)). }
  destruct quit_flag.
  - by injection Hloop as <-.
  - by eapply IH.
Qed.

Lemma dispatch_result_balance (srv : Server) (addr : Address) (w w' : Wallet) :
  consistent srv ->
  dispatch_result srv addr w = Ok w' ->
  balance_matches_utxos w -> balance_matches_utxos w'.
Proof.
  intros Hsrv. unfold dispatch_result.
  destruct (address_get_history srv addr) as [|item rest]; [done|].
  destruct (_get_utxos srv addr) as [us|e] eqn:Hus.
  - destruct (interpret_new_history_table srv addr item false w us Hus)
      as (w1 & -> & Hutxos & Hbalance & _).
    intros [= <-] Hw. simpl.
    by apply (balance_matches_utxos_add srv addr us w).
  - unfold _interpret_new_history. by rewrite Hus.
Qed.

(** C1 (as the code has it).  In every state that discovery and live
    synchronisation lead to, against servers whose confirmed balance of an
    address is the total of the outputs they list as unspent for it, the
    balance, which is kept in coins, times 100,000,000 is the sum of the
    values of the unspent outputs held, which are in units. *)
Theorem synced_balance_matches_utxos (w : Wallet) :
  synced w -> (balance w * inject_Z _COIN == sum_values (utxos w))%Q.
Proof.
  intros Hw. change (balance_matches_utxos w).
  induction Hw as [|w fuel srv change w' _ IH Hsrv Hstep
                    |w srv addr w' _ IH Hsrv Hstep].
  - by vm_compute.
  - by eapply discover_keys_balance.
  - by eapply dispatch_result_balance.
Qed.


End Balance.

(** On a bench server an address that is not funded has no output. *)
Lemma bench_server_not_funded (funded : list (Address * Z)) (addr : Address) :
  addr ∉ funded.*1 ->
  @_get_utxos bench_pycoin (bench_server funded) addr = Ok [] /\
  address_get_balance (bench_server funded) addr = 0.
Proof.
  intros Hnot. apply (not_elem_of_list_to_map_1 (M := gmap Address)) in Hnot.
  unfold _get_utxos. simpl. by rewrite Hnot.
Qed.

Lemma server_2_5_consistent : @consistent bench_pycoin server_2_5.
Proof.
  intros addr us Hus.
  destruct (decide (addr = "s2")) as [->|H2].
  { vm_compute in Hus. injection Hus as <-. by vm_compute. }
  destruct (decide (addr = "s5")) as [->|H5].
  { vm_compute in Hus. injection Hus as <-. by vm_compute. }
  destruct (bench_server_not_funded [("s2", 100000000); ("s5", 50000000)] addr)
    as [Hnone Hzero].
  { simpl. rewrite !not_elem_of_cons. repeat split; auto. apply not_elem_of_nil. }
  unfold server_2_5 in *. rewrite Hnone in Hus. injection Hus as <-.
  rewrite Hzero. by vm_compute.
Qed.

Lemma bench_wallet_discovered :
  exists w,
    @discover_keys bench_keys bench_pycoin 2 server_2_5 false new_wallet
    = Some (Ok w) /\
    @discover_keys bench_keys bench_pycoin 1 server_2_5 true w
    = Some (Ok bench_wallet).
Proof. eexists. split; by vm_compute. Qed.

Lemma bench_wallet_synced : @synced bench_keys bench_pycoin bench_wallet.
Proof.
  destruct bench_wallet_discovered as (w & Hspend & Hchange).
  eapply synced_discover; [|apply server_2_5_consistent|exact Hchange].
  eapply synced_discover; [|apply server_2_5_consistent|exact Hspend].
  apply synced_new.
Qed.

Lemma synced_balance_matches_utxos_witness :
  (balance bench_wallet * inject_Z _COIN == sum_values (utxos bench_wallet))%Q /\
  utxos bench_wallet <> [].
Proof.
  split.
  - exact (@synced_balance_matches_utxos bench_keys bench_pycoin
             bench_wallet bench_wallet_synced).
  - by vm_compute.
Defined.


(** C1 as the specification states it fails.  After discovery the balance
    is 1.5 (coins) and the outputs held sum to 150,000,000 (units); and
    after a spend of 0.4 from that state the balance is 1.1 while the
    outputs held, none of which was removed, sum to 190,000,000. *)
Lemma balance_is_not_utxo_sum :
  (@reachable bench_keys bench_pycoin bench_wallet /\
   (balance bench_wallet == 15 # 10)%Q /\
   (sum_values (utxos bench_wallet) == 150000000)%Q /\
   ~ (balance bench_wallet == sum_values (utxos bench_wallet))%Q) /\
  (exists w,
      @reachable bench_keys bench_pycoin w /\
      (balance w == 11 # 10)%Q /\
      (sum_values (utxos w) == 190000000)%Q /\
      ~ (balance w * inject_Z _COIN == sum_values (utxos w))%Q).
Proof.
  assert (@reachable bench_keys bench_pycoin bench_wallet) as Hreach.
  { destruct bench_wallet_discovered as (w & Hspend & Hchange).
    eapply reachable_discover; [|apply server_2_5_consistent|exact Hchange].
    eapply reachable_discover; [|apply server_2_5_consistent|exact Hspend].
    apply reachable_new. }
  split.
  - split; [exact Hreach|]. split; [by vm_compute|]. split; [by vm_compute|].
    intros Heq. by vm_compute in Heq.
  - destruct (@spend bench_keys bench_pycoin server_2_5 "dest" (4 # 10) bench_wallet)
      as [log [[txid w]|e]] eqn:E; [|by vm_compute in E].
    exists w. split.
    { eapply reachable_spend; [exact Hreach|]. by rewrite E. }
    vm_compute in E. injection E as _ _ <-.
    split; [by vm_compute|]. split; [by vm_compute|].
    intros Heq. by vm_compute in Heq.
Qed.

(** ** The fee *)

Lemma Qtruncate_nonneg (q : Q) :
  (0 <= q)%Q -> (inject_Z (Qtruncate q) <= q < inject_Z (Qtruncate q) + 1)%Q.
Proof.
  intros Hq. assert (Qtruncate q = Qfloor q) as ->.
  { destruct q as [n d]. unfold Qtruncate, Qfloor. simpl.
    apply Z.quot_div_nonneg; [|lia].
    unfold Qle in Hq. simpl in Hq. lia. }
  split; [apply Qfloor_le|].
  change 1%Q with (inject_Z 1). rewrite <- inject_Z_plus. apply Qlt_floor.
Qed.

Lemma Qtruncate_nonpos (q : Q) :
  (q <= 0)%Q -> (inject_Z (Qtruncate q) - 1 < q <= inject_Z (Qtruncate q))%Q.
Proof.
  intros Hq. assert (Qtruncate q = Qceiling q) as ->.
  { destruct q as [n d]. unfold Qtruncate, Qceiling, Qfloor. simpl.
    assert (n <= 0) by (unfold Qle in Hq; simpl in Hq; lia).
    rewrite <- (Z.opp_involutive n) at 1.
    rewrite Z.quot_opp_l by lia. f_equal.
    apply Z.quot_div_nonneg; lia. }
  split; [|apply Qle_ceiling].
  assert (inject_Z (Qceiling q) - 1 == inject_Z (Qceiling q - 1))%Q as ->.
  { unfold Z.sub. rewrite inject_Z_plus. reflexivity. }
  apply Qceiling_lt.
Qed.

(** [int] of a finite float is its value cut toward zero. *)
Lemma int_of_float_truncates (x : float) :
  is_finite x = true -> int_of_float x = Ok (Qtruncate (float_value x)).
Proof.
  destruct x as [s|s| |s m e]; try done; intros _; simpl.
  f_equal. destruct (Z.leb_spec 0 e) as [He|He]; unfold Qtruncate; simpl.
  - rewrite Z.quot_1_r, Z.shiftl_mul_pow2 by done.
    destruct s; [|done]. by rewrite <- Z.mul_opp_l.
  - rewrite <- Z.shiftr_opp_r, Z.shiftr_div_pow2 by lia.
    rewrite Pos2Z.inj_pow, Z2Pos.id by lia.
    assert (0 < 2 ^ (- e)) by (apply Z.pow_pos_nonneg; lia).
    destruct s.
    + change (Z.neg m) with (- Z.pos m). rewrite Z.quot_opp_l by lia.
      f_equal. symmetry. apply Z.quot_div_nonneg; lia.
    + symmetry. apply Z.quot_div_nonneg; lia.
Qed.

(** C6.  [get_fee] asks the server for the estimate for 6 blocks and
    returns the product of the size of the transaction in kilobytes (its
    length over 1024), that rate and the number of units in a coin, as
    Python's floats compute it, cut to an integer toward zero: the fee in
    units is no further than one unit from the product, and never beyond
    it. *)
Theorem get_fee_truncates {lib : Pycoin} (srv : Server) (tx : Tx) :
  let size_in_kb := float_div (float_of_Z (stream_length tx)) (float_of_Z 1024) in
  let product := float_mul (float_mul size_in_kb (estimatefee srv 6))
                           (float_of_Z _COIN) in
  is_finite product = true ->
  exists fee,
    get_fee srv tx = ([CallEstimateFee 6], Ok fee) /\
    fee = Qtruncate (float_value product) /\
    ((0 <= float_value product)%Q ->
     (inject_Z fee <= float_value product < inject_Z fee + 1)%Q) /\
    ((float_value product <= 0)%Q ->
     (inject_Z fee - 1 < float_value product <= inject_Z fee)%Q).
Proof.
  intros size_in_kb product Hfinite.
  exists (Qtruncate (float_value product)). split; [|split; [done|split]].
  - unfold get_fee, calling, fee_float. fold size_in_kb. fold product.
    by rewrite int_of_float_truncates.
  - apply Qtruncate_nonneg.
  - apply Qtruncate_nonpos.
Qed.

(** A transaction of 250 bytes at a rate of 4 per kilobyte: a fee of
    97,656,250 units, that is 0.9765625. *)
Lemma get_fee_truncates_witness :
  @get_fee (sized_pycoin 250) (rate_server (float_of_Z 4)) empty_tx
  = ([CallEstimateFee 6], Ok 97656250).
Proof.
  destruct (@get_fee_truncates (sized_pycoin 250) (rate_server (float_of_Z 4))
              empty_tx eq_refl) as (fee & -> & -> & _).
  by vm_compute.
Defined.

(** ** Canonical ordering *)

(** Sorting with the [__lt__] of a three-way comparison that is
    antisymmetric and whose "not greater" is transitive. *)
Section Sorting.
Context {A : Type} (cmp : A -> A -> comparison).
Hypothesis cmp_antisym : forall a b, cmp b a = CompOpp (cmp a b).
Hypothesis cmp_le_trans :
  forall a b c, cmp a b <> Gt -> cmp b c <> Gt -> cmp a c <> Gt.

Let lt (a b : A) : bool := is_Lt (cmp a b).

Lemma not_after_cmp (a b : A) : not_after lt a b <-> cmp a b <> Gt.
Proof.
  unfold not_after, lt. rewrite (cmp_antisym a b).
  destruct (cmp a b); simpl; split; congruence.
Qed.

Lemma not_after_total (a b : A) : not_after lt a b \/ not_after lt b a.
Proof.
  rewrite !not_after_cmp, (cmp_antisym a b).
  destruct (cmp a b); simpl; auto; left; congruence.
Qed.

Lemma not_after_trans (a b c : A) :
  not_after lt a b -> not_after lt b c -> not_after lt a c.
Proof. rewrite !not_after_cmp. apply cmp_le_trans. Qed.

Lemma not_after_antisym (a b : A) :
  not_after lt a b -> not_after lt b a -> cmp a b = Eq.
Proof.
  rewrite !not_after_cmp, (cmp_antisym a b).
  destruct (cmp a b); simpl; congruence.
Qed.

Lemma cmp_Eq_trans (a b c : A) : cmp a b = Eq -> cmp a c = Eq -> cmp b c = Eq.
Proof.
  intros Hab Hac.
  assert (cmp b c <> Gt) as H1.
  { apply (cmp_le_trans b a c); [|congruence].
    rewrite (cmp_antisym a b), Hab. simpl. congruence. }
  assert (cmp c b <> Gt) as H2.
  { apply (cmp_le_trans c a b); [|congruence].
    rewrite (cmp_antisym a c), Hac. simpl. congruence. }
  rewrite (cmp_antisym b c) in H2.
  destruct (cmp b c); simpl in *; congruence.
Qed.

Lemma sort_insert_Permutation (x : A) (l : list A) :
  sort_insert lt x l ≡ₚ x :: l.
Proof.
  induction l as [|y l IH]; simpl; [done|].
  destruct (lt y x); [|done]. rewrite IH. apply Permutation_swap.
Qed.

Lemma list_sort_Permutation (l : list A) : list_sort lt l ≡ₚ l.
Proof.
  induction l as [|x l IH]; simpl; [done|].
  by rewrite sort_insert_Permutation, IH.
Qed.

Lemma sort_insert_Sorted (x : A) (l : list A) :
  Sorted (not_after lt) l -> Sorted (not_after lt) (sort_insert lt x l).
Proof.
  induction l as [|y l IH]; simpl; intros Hl.
  - by repeat constructor.
  - apply Sorted_inv in Hl as [Hl Hy].
    destruct (lt y x) eqn:Hyx.
    + constructor; [by apply IH|].
      destruct l as [|z l]; simpl.
      * constructor. apply not_after_cmp. unfold lt, is_Lt in Hyx.
        destruct (cmp y x); congruence.
      * destruct (lt z x).
        -- constructor. by apply HdRel_inv in Hy.
        -- constructor. apply not_after_cmp. unfold lt, is_Lt in Hyx.
           destruct (cmp y x); congruence.
    + constructor; [by constructor|]. by constructor.
Qed.

Lemma list_sort_Sorted (l : list A) : Sorted (not_after lt) (list_sort lt l).
Proof.
  induction l as [|x l IH]; simpl; [constructor|].
  by apply sort_insert_Sorted.
Qed.

Lemma list_sort_sorted_id (l : list A) :
  Sorted (not_after lt) l -> list_sort lt l = l.
Proof.
  induction l as [|x l IH]; simpl; [done|]. intros Hl.
  apply Sorted_inv in Hl as [Hl Hx]. rewrite IH by done.
  destruct l as [|y l]; simpl; [done|].
  apply HdRel_inv in Hx. unfold not_after in Hx. by rewrite Hx.
Qed.

Lemma list_sort_idempotent (l : list A) :
  list_sort lt (list_sort lt l) = list_sort lt l.
Proof. apply list_sort_sorted_id, list_sort_Sorted. Qed.

(** Stability: elements that compare equal keep the order they had. *)
Lemma sort_insert_filter_Eq (k x : A) (l : list A) :
  filter (fun y => cmp k y = Eq) (sort_insert lt x l)
  = filter (fun y => cmp k y = Eq) (x :: l).
Proof.
  induction l as [|y l IH]; simpl; [done|].
  destruct (lt y x) eqn:Hyx; [|done].
  rewrite filter_cons, IH, !filter_cons.
  destruct (decide (cmp k y = Eq)) as [Hy|]; [|done].
  destruct (decide (cmp k x = Eq)) as [Hx|]; [|done].
  pose proof (cmp_Eq_trans k y x Hy Hx) as Heq.
  unfold lt in Hyx. by rewrite Heq in Hyx.
Qed.

Lemma list_sort_stable (k : A) (l : list A) :
  filter (fun y => cmp k y = Eq) (list_sort lt l)
  = filter (fun y => cmp k y = Eq) l.
Proof.
  induction l as [|x l IH]; simpl; [done|].
  by rewrite sort_insert_filter_Eq, !filter_cons, IH.
Qed.

End Sorting.

(** The order of strings. *)
Lemma ascii_compare_refl (c : ascii) : Ascii.compare c c = Eq.
Proof. unfold Ascii.compare. apply N.compare_refl. Qed.

Lemma string_compare_refl (s : string) : String.compare s s = Eq.
Proof. induction s as [|c s IH]; simpl; [done|]. by rewrite ascii_compare_refl. Qed.

Lemma string_compare_lt_trans (s1 s2 s3 : string) :
  String.compare s1 s2 = Lt -> String.compare s2 s3 = Lt ->
  String.compare s1 s3 = Lt.
Proof.
  revert s2 s3. induction s1 as [|c1 s1 IH]; intros [|c2 s2] [|c3 s3]; simpl;
    try done.
  destruct (Ascii.compare c1 c2) eqn:E12; [|clear IH|done];
    (destruct (Ascii.compare c2 c3) eqn:E23; [| |done]).
  - apply Ascii.compare_eq_iff in E12 as ->.
    apply Ascii.compare_eq_iff in E23 as ->.
    rewrite ascii_compare_refl. apply IH.
  - apply Ascii.compare_eq_iff in E12 as ->. by rewrite E23.
  - apply Ascii.compare_eq_iff in E23 as <-. by rewrite E12.
  - unfold Ascii.compare in *.
    assert ((N_of_ascii c1 ?= N_of_ascii c3)%N = Lt) as ->; [|done].
    exact (N.lt_trans _ _ _ E12 E23).
Qed.

(** A comparison by a string first and a second component after. *)
Section Lexicographic.
Context {B : Type} (cmpB : B -> B -> comparison).
Hypothesis cmpB_antisym : forall a b, cmpB b a = CompOpp (cmpB a b).
Hypothesis cmpB_le_trans :
  forall a b c, cmpB a b <> Gt -> cmpB b c <> Gt -> cmpB a c <> Gt.

Lemma lex_compare_antisym (x y : string * B) :
  lex_compare String.compare cmpB y x
  = CompOpp (lex_compare String.compare cmpB x y).
Proof.
  unfold lex_compare. rewrite (String.compare_antisym y.1 x.1).
  destruct (String.compare x.1 y.1); simpl; auto.
Qed.

Lemma lex_compare_le_trans (x y z : string * B) :
  lex_compare String.compare cmpB x y <> Gt ->
  lex_compare String.compare cmpB y z <> Gt ->
  lex_compare String.compare cmpB x z <> Gt.
Proof.
  unfold lex_compare.
  destruct (String.compare x.1 y.1) eqn:Exy; [| |done];
    (destruct (String.compare y.1 z.1) eqn:Eyz; [| |done]).
  - apply String.compare_eq_iff in Exy. apply String.compare_eq_iff in Eyz.
    rewrite Exy, Eyz, string_compare_refl. apply cmpB_le_trans.
  - apply String.compare_eq_iff in Exy. rewrite Exy, Eyz. done.
  - apply String.compare_eq_iff in Eyz. rewrite <- Eyz, Exy. done.
  - by rewrite (string_compare_lt_trans _ _ _ Exy Eyz).
Qed.

Lemma lex_compare_Eq (x y : string * B) :
  lex_compare String.compare cmpB x y = Eq <-> x.1 = y.1 /\ cmpB x.2 y.2 = Eq.
Proof.
  unfold lex_compare. split.
  - destruct (String.compare x.1 y.1) eqn:E; try done.
    apply String.compare_eq_iff in E. done.
  - intros [-> ->]. by rewrite string_compare_refl.
Qed.

End Lexicographic.

Lemma Nat_compare_le_trans (a b c : nat) :
  Nat.compare a b <> Gt -> Nat.compare b c <> Gt -> Nat.compare a c <> Gt.
Proof. rewrite !Nat.compare_le_iff. lia. Qed.

Lemma Qcompare_le_trans (a b c : Q) :
  Qcompare a b <> Gt -> Qcompare b c <> Gt -> Qcompare a c <> Gt.
Proof. rewrite <- !Qle_alt. apply Qle_trans. Qed.

Lemma LexSpendable_compare_antisym (a b : Spendable) :
  LexSpendable_compare b a = CompOpp (LexSpendable_compare a b).
Proof. apply lex_compare_antisym, Nat.compare_antisym. Qed.

Lemma LexSpendable_compare_le_trans (a b c : Spendable) :
  LexSpendable_compare a b <> Gt -> LexSpendable_compare b c <> Gt ->
  LexSpendable_compare a c <> Gt.
Proof. apply lex_compare_le_trans, Nat_compare_le_trans. Qed.

Lemma LexTxOut_compare_antisym (a b : TxOut) :
  LexTxOut_compare b a = CompOpp (LexTxOut_compare a b).
Proof.
  apply lex_compare_antisym. intros x y. symmetry. apply Qcompare_antisym.
Qed.

Lemma LexTxOut_compare_le_trans (a b c : TxOut) :
  LexTxOut_compare a b <> Gt -> LexTxOut_compare b c <> Gt ->
  LexTxOut_compare a c <> Gt.
Proof. apply lex_compare_le_trans, Qcompare_le_trans. Qed.

(** C7.  The order [mktx] sorts its inputs by (the hash of the transaction,
    then the index of the output) and the one it sorts its outputs by (the
    script, then the value) are total preorders whose ties are the elements
    with the same key.  Sorting by either gives a sorted rearrangement of
    the list, leaves a sorted list as it is, so that sorting twice is
    sorting once, and keeps the elements of a tie in the order they had. *)
Theorem canonical_ordering_total_idempotent :
  ((forall a b, not_after LexSpendable_lt a b \/ not_after LexSpendable_lt b a) /\
   (forall a b c, not_after LexSpendable_lt a b -> not_after LexSpendable_lt b c ->
                  not_after LexSpendable_lt a c) /\
   (forall a b, not_after LexSpendable_lt a b -> not_after LexSpendable_lt b a ->
                sp_tx_hash a = sp_tx_hash b /\ sp_tx_out_index a = sp_tx_out_index b) /\
   (forall l, Sorted (not_after LexSpendable_lt) (sort_spendables l) /\
              sort_spendables l ≡ₚ l) /\
   (forall l, Sorted (not_after LexSpendable_lt) l -> sort_spendables l = l) /\
   (forall l, sort_spendables (sort_spendables l) = sort_spendables l) /\
   (forall k l, filter (fun x => LexSpendable_compare k x = Eq) (sort_spendables l)
                = filter (fun x => LexSpendable_compare k x = Eq) l)) /\
  ((forall a b, not_after LexTxOut_lt a b \/ not_after LexTxOut_lt b a) /\
   (forall a b c, not_after LexTxOut_lt a b -> not_after LexTxOut_lt b c ->
                  not_after LexTxOut_lt a c) /\
   (forall a b, not_after LexTxOut_lt a b -> not_after LexTxOut_lt b a ->
                script a = script b /\ (coin_value a == coin_value b)%Q) /\
   (forall l, Sorted (not_after LexTxOut_lt) (sort_txs_out l) /\
              sort_txs_out l ≡ₚ l) /\
   (forall l, Sorted (not_after LexTxOut_lt) l -> sort_txs_out l = l) /\
   (forall l, sort_txs_out (sort_txs_out l) = sort_txs_out l) /\
   (forall k l, filter (fun x => LexTxOut_compare k x = Eq) (sort_txs_out l)
                = filter (fun x => LexTxOut_compare k x = Eq) l)).
Proof.
  split.
  - pose proof LexSpendable_compare_antisym as Ha.
    pose proof LexSpendable_compare_le_trans as Ht.
    split; [apply (not_after_total _ Ha)|].
    split; [apply (not_after_trans _ Ha Ht)|].
    split.
    { intros a b Hab Hba.
      pose proof (not_after_antisym _ Ha a b Hab Hba) as Heq.
      apply lex_compare_Eq in Heq as [Hhash Hindex].
      split; [exact Hhash|]. by apply Nat.compare_eq in Hindex. }
    split.
    { intros l. split; [by apply list_sort_Sorted|apply list_sort_Permutation]. }
    split; [apply (list_sort_sorted_id _)|].
    split; [apply (list_sort_idempotent _ Ha)|].
    apply (list_sort_stable _ Ha Ht).
  - pose proof LexTxOut_compare_antisym as Ha.
    pose proof LexTxOut_compare_le_trans as Ht.
    split; [apply (not_after_total _ Ha)|].
    split; [apply (not_after_trans _ Ha Ht)|].
    split.
    { intros a b Hab Hba.
      pose proof (not_after_antisym _ Ha a b Hab Hba) as Heq.
      apply lex_compare_Eq in Heq as [Hscript Hvalue].
      split; [exact Hscript|]. by apply Qeq_alt in Hvalue. }
    split.
    { intros l. split; [by apply list_sort_Sorted|apply list_sort_Permutation]. }
    split; [apply (list_sort_sorted_id _)|].
    split; [apply (list_sort_idempotent _ Ha)|].
    apply (list_sort_stable _ Ha Ht).
Qed.

Lemma canonical_ordering_total_idempotent_witness :
  sort_txs_out bench_outputs = bench_outputs /\
  sort_txs_out (rev bench_outputs) = bench_outputs.
Proof.
  destruct canonical_ordering_total_idempotent
    as [_ (_ & _ & _ & _ & Hsorted & _)].
  split; [|by vm_compute].
  apply Hsorted. repeat constructor.
Defined.

(** ** Funds *)

Section Funds.
Context {keys : KeyTree} {lib : Pycoin}.

Lemma select_coins_exhausted (l : list Spendable) (amount : Q) :
  exhausted l amount -> (select_coins l amount).1.1 = l.
Proof.
  intros Hex. destruct (select_coins_selection l amount) as (n & -> & Hn & _ & Hstop).
  simpl. destruct Hstop as [->|Hge].
  - apply firstn_all.
  - specialize (Hex n Hn). by apply Qle_not_lt in Hge.
Qed.

(** [mktx], step by step. *)
Lemma mktx_unfold (srv : Server) (w : Wallet) (out_addr : Address) (amount : Q) :
  mktx srv w out_addr amount =
  match get_next_unused_key w true with
  | None => ([], Raise AttributeError)
  | Some change_key =>
      let tx := unsigned_tx w out_addr amount change_key in
      match int_of_float (fee_float srv tx) with
      | Raise e => ([CallEstimateFee 6], Raise e)
      | Ok fee =>
          match distribute_from_split_pool tx fee with
          | Raise e => ([CallEstimateFee 6; CallDistribute fee], Raise e)
          | Ok tx' =>
              ([CallEstimateFee 6; CallDistribute fee; CallSignTx],
               sign_tx tx'
                 (wifs_of w (select_coins (utxos w) (amount * inject_Z _COIN)).1.2))
          end
      end
  end.
Proof.
  unfold mktx, unsigned_tx.
  destruct (select_coins (utxos w) (amount * inject_Z _COIN))
    as [[spendables in_addrs] total_out]. simpl.
  destruct (get_next_unused_key w true) as [change_key|]; [|done]. simpl.
  destruct (int_of_float _) as [fee|e]; [|done]. simpl.
  by destruct (distribute_from_split_pool _ fee) as [tx'|e].
Qed.

Lemma Qsum_cons (x : Q) (l : list Q) : (Qsum (x :: l) == x + Qsum l)%Q.
Proof. unfold Qsum. simpl. rewrite fold_left_Qplus. ring. Qed.

Lemma Qsum_Permutation (l l' : list Q) : l ≡ₚ l' -> (Qsum l == Qsum l')%Q.
Proof.
  induction 1 as [|x l l' _ IH|x y l|l1 l2 l3 _ IH1 _ IH2].
  - reflexivity.
  - by rewrite !Qsum_cons, IH.
  - rewrite !Qsum_cons. ring.
  - by rewrite IH1.
Qed.

(** The inputs and outputs of the transaction [mktx] asks the fee for. *)
Lemma unsigned_tx_totals (w : Wallet) (out_addr : Address) (amount : Q)
    (change_key : Key) :
  let tx := unsigned_tx w out_addr amount change_key in
  (Qsum (map sp_coin_value (unspents tx))
   == sum_values (select_coins (utxos w) (amount * inject_Z _COIN)).1.1)%Q /\
  (Qsum (map coin_value (txs_out tx)) == amount * inject_Z _COIN)%Q /\
  Exists (fun o => coin_value o == 0)%Q (txs_out tx).
Proof.
  intros tx. subst tx. unfold unsigned_tx. cbn [unspents txs_out].
  split; [|split].
  - apply Qsum_Permutation, fmap_Permutation, list_sort_Permutation.
  - etransitivity.
    { apply Qsum_Permutation, fmap_Permutation, list_sort_Permutation. }
    unfold Qsum. simpl. ring.
  - apply Exists_exists.
    exists {| coin_value := 0;
              script := standard_tx_out_script (address change_key) |}.
    split; [|reflexivity].
    rewrite (list_sort_Permutation LexTxOut_compare). set_solver.
Qed.

(** C5 (as the code has it).  [mktx] has no check of the funds of its own:
    when the outputs run out before the amount is reached, coin selection
    takes all of them and [mktx] goes on to the fee estimate.  The check is
    the library's, in [distribute_from_split_pool], which [mktx] calls after
    the fee estimate and before [sign_tx]: an error it raises is the error
    of [mktx], and [sign_tx] is called only when it has returned.  With a
    library that refuses a transaction whose inputs do not cover its outputs
    and the fee, [mktx] fails, before any signing, whenever the outputs
    selected are worth less than the amount and the fee.  The spend mode of
    [main] refuses an amount above the balance with "Insufficient funds"
    before [mktx] is called; after discovery that covers every amount the
    outputs held cannot reach. *)
Theorem mktx_funds_check :
  (forall l amount, exhausted l amount -> (select_coins l amount).1.1 = l) /\
  (forall srv w out_addr amount change_key fee e,
      get_next_unused_key w true = Some change_key ->
      int_of_float (fee_float srv (unsigned_tx w out_addr amount change_key)) = Ok fee ->
      distribute_from_split_pool (unsigned_tx w out_addr amount change_key) fee
      = Raise e ->
      mktx srv w out_addr amount
      = ([CallEstimateFee 6; CallDistribute fee], Raise e)) /\
  (forall srv w out_addr amount,
      CallSignTx ∈ (mktx srv w out_addr amount).1 ->
      exists change_key fee tx',
        get_next_unused_key w true = Some change_key /\
        distribute_from_split_pool (unsigned_tx w out_addr amount change_key) fee
        = Ok tx' /\
        (mktx srv w out_addr amount).1
        = [CallEstimateFee 6; CallDistribute fee; CallSignTx]) /\
  (forall srv w out_addr amount change_key fee,
      checks_funds ->
      get_next_unused_key w true = Some change_key ->
      int_of_float (fee_float srv (unsigned_tx w out_addr amount change_key)) = Ok fee ->
      (sum_values (select_coins (utxos w) (amount * inject_Z _COIN)).1.1
       < amount * inject_Z _COIN + inject_Z fee)%Q ->
      exists e,
        mktx srv w out_addr amount
        = ([CallEstimateFee 6; CallDistribute fee], Raise e)) /\
  (forall srv w spend_addr spend_amount,
      spend_addr <> "" -> ~ (spend_amount == 0)%Q ->
      ((balance w < spend_amount)%Q ->
       main_spend srv spend_addr spend_amount w
       = ([], Raise (AssertionError "Insufficient funds"))) /\
      (balance_matches_utxos w ->
       exhausted (utxos w) (spend_amount * inject_Z _COIN) ->
       main_spend srv spend_addr spend_amount w
       = ([], Raise (AssertionError "Insufficient funds")))).
Proof.
  assert (forall srv w out_addr amount change_key fee e,
      get_next_unused_key w true = Some change_key ->
      int_of_float (fee_float srv (unsigned_tx w out_addr amount change_key)) = Ok fee ->
      distribute_from_split_pool (unsigned_tx w out_addr amount change_key) fee
      = Raise e ->
      mktx srv w out_addr amount
      = ([CallEstimateFee 6; CallDistribute fee], Raise e)) as Hraise.
  { intros srv w out_addr amount change_key fee e Hkey Hfee Hdist.
    rewrite mktx_unfold, Hkey. simpl. by rewrite Hfee, Hdist. }
  split; [exact select_coins_exhausted|]. split; [exact Hraise|].
  split; [|split].
  - intros srv w out_addr amount. rewrite mktx_unfold.
    destruct (get_next_unused_key w true) as [change_key|]; simpl.
    2: { intros Hin. by apply elem_of_nil in Hin. }
    destruct (int_of_float _) as [fee|e]; simpl.
    2: { intros Hin. apply list_elem_of_singleton in Hin. discriminate. }
    destruct (distribute_from_split_pool _ fee) as [tx'|e] eqn:Hdist; simpl.
    + intros _. by exists change_key, fee, tx'.
    + intros Hin. rewrite !elem_of_cons in Hin.
      destruct Hin as [|[|Hin]]; [discriminate..|]. by apply elem_of_nil in Hin.
  - intros srv w out_addr amount change_key fee Hlib Hkey Hfee Hshort.
    destruct (unsigned_tx_totals w out_addr amount change_key)
      as (Hins & Houts & Hzero).
    specialize (Hlib (unsigned_tx w out_addr amount change_key) fee Hzero).
    destruct (distribute_from_split_pool _ fee) as [tx'|e] eqn:Hdist.
    + rewrite Hins, Houts in Hlib. by specialize (Hlib Hshort).
    + exists e. by apply (Hraise _ _ _ _ change_key).
  - intros srv w spend_addr spend_amount Haddr Hamount.
    assert ((balance w < spend_amount)%Q ->
            main_spend srv spend_addr spend_amount w
            = ([], Raise (AssertionError "Insufficient funds"))) as Hmain.
    { intros Hlt. unfold main_spend.
      rewrite bool_decide_eq_false_2 by done.
      destruct (Qeq_bool spend_amount 0) eqn:Hzero.
      { by apply Qeq_bool_eq in Hzero. }
      simpl. destruct (Qle_bool spend_amount (balance w)) eqn:Hle; [|done].
      apply Qle_bool_iff in Hle. by apply Qle_not_lt in Hle. }
    split; [exact Hmain|].
    intros Hbalance Hex. apply Hmain.
    specialize (Hex (length (utxos w)) (Nat.le_refl _)).
    rewrite firstn_all in Hex. unfold balance_matches_utxos in Hbalance.
    rewrite <- Hbalance in Hex.
    apply Qmult_lt_r in Hex; [done|]. by vm_compute.
Qed.

End Funds.

(** The stand-in of the bench keeps the rule [checks_funds] asks for. *)
Lemma bench_checks_funds : @checks_funds bench_pycoin.
Proof.
  intros tx fee Hzero Hshort. simpl. unfold bench_distribute.
  destruct (Z.eqb_spec
              (Z.of_nat (length (filter (fun o => Qeq_bool (coin_value o) 0 = true)
                                        (txs_out tx)))) 0) as [Hnone|_].
  - apply Exists_exists in Hzero as (o & Ho & Hvalue).
    assert (o ∈ filter (fun o => Qeq_bool (coin_value o) 0 = true) (txs_out tx)) as Hin.
    { apply list_elem_of_filter. split; [|done]. by apply Qeq_bool_iff. }
    destruct (filter _ (txs_out tx)); [by apply elem_of_nil in Hin|done].
  - assert (Qltb (Qsum (map sp_coin_value (unspents tx))
                  - (Qsum (map coin_value (txs_out tx)) + inject_Z fee)) 0 = true)
      as ->; [|done].
    apply Qltb_lt. apply Qlt_minus_iff in Hshort. apply Qlt_minus_iff.
    eapply Qlt_le_trans; [exact Hshort|]. apply Qle_lteq. right. ring.
Qed.

Lemma mktx_funds_check_witness :
  @main_spend bench_keys bench_pycoin server_2_5 "dest" 2 bench_wallet
  = ([], Raise (AssertionError "Insufficient funds")) /\
  exists e,
    @mktx bench_keys bench_pycoin server_2_5 bench_wallet "dest" (15 # 10)
    = ([CallEstimateFee 6; CallDistribute 1562], Raise e).
Proof.
  destruct (@mktx_funds_check bench_keys bench_pycoin)
    as (_ & _ & _ & Hlib & Hmain).
  split.
  - destruct (Hmain server_2_5 bench_wallet "dest" 2%Q) as [Hbelow _].
    + done.
    + intros Hzero. by vm_compute in Hzero.
    + apply Hbelow. by vm_compute.
  - apply (Hlib server_2_5 bench_wallet "dest" (15 # 10)%Q (get_key 0 true) 1562).
    + apply bench_checks_funds.
    + by vm_compute.
    + by vm_compute.
    + by vm_compute.
Defined.

(** C5 as the specification states it fails.  The outputs held are worth
    1.5 and 1.55 is asked for, so they run out before the amount is
    reached.  Against a server that has no fee estimate and answers -1,
    [mktx] returns a signed transaction; and on a wallet whose change chain
    has no unused entry it raises [AttributeError], not an error about
    funds. *)
Lemma mktx_exhausted_without_funds_error :
  exhausted (utxos bench_wallet) ((155 # 100) * inject_Z _COIN) /\
  (exists tx,
      @mktx bench_keys bench_pycoin server_no_estimate bench_wallet "dest" (155 # 100)
      = ([CallEstimateFee 6; CallDistribute (-15625000); CallSignTx], Ok tx)) /\
  exhausted (utxos new_wallet) (1 * inject_Z _COIN) /\
  @mktx bench_keys bench_pycoin server_2_5 new_wallet "dest" 1
  = ([], Raise AttributeError).
Proof.
  split; [|split; [|split]].
  - intros k Hk. change (length (utxos bench_wallet)) with 2%nat in Hk.
    do 3 (destruct k as [|k]; [by vm_compute|]). lia.
  - eexists. by vm_compute.
  - intros k Hk. by destruct k.
  - by vm_compute.
Qed.

(** * Further properties of the code *)

(** ** Discovery, from what it returns *)

Section DiscoveryResults.
Context {keys : KeyTree} {lib : Pycoin}.

Lemma interpret_history_step_Ok (srv : Server) (change : bool) (w w' : Wallet)
    (is_empty is_empty' : bool) (hist : list HistoryItem) :
  interpret_history_step srv change (w, is_empty) hist = Ok (w', is_empty') ->
  is_empty' = is_empty && match hist with [] => true | _ => false end /\
  indicies w' change
  = indicies w change ++ [match hist with [] => false | _ => true end] /\
  indicies w' (negb change) = indicies w (negb change) /\
  new_history w' = new_history w /\
  history w'
  = match hist with
    | [] => history w
    | _ :: _ =>
        <[address (get_key (length (indicies w change)) change)
          := _get_history srv (map tx_hash hist)]> (history w)
    end.
Proof.
  destruct hist as [|item hist]; simpl.
  - intros [= <- <-]. rewrite andb_true_r. by destruct change.
  - destruct (_get_utxos srv _) as [us|e]; [|done]. simpl.
    intros [= <- <-]. rewrite andb_false_r. by destruct change.
Qed.

Lemma interpret_history_loop_Ok (srv : Server) (change : bool)
    (histories : list (list HistoryItem)) (w w' : Wallet)
    (is_empty is_empty' : bool) :
  interpret_history_loop srv change histories (w, is_empty) = Ok (w', is_empty') ->
  is_empty'
  = is_empty && forallb (fun h => match h with [] => true | _ => false end) histories /\
  indicies w' change
  = indicies w change
    ++ map (fun h => match h with [] => false | _ => true end) histories /\
  indicies w' (negb change) = indicies w (negb change) /\
  new_history w' = new_history w.
Proof.
  revert w is_empty.
  induction histories as [|hist histories IH]; intros w is_empty;
    cbn [interpret_history_loop forallb map].
  - intros [= <- <-]. by rewrite andb_true_r, app_nil_r.
  - destruct (interpret_history_step srv change (w, is_empty) hist)
      as [[w1 is_empty1]|e] eqn:Hstep; [|done].
    cbn [mbind result_bind]. intros Hloop.
    apply interpret_history_step_Ok in Hstep as (-> & Ht1 & Ho1 & Hn1 & _).
    apply IH in Hloop as (-> & Ht2 & Ho2 & Hn2).
    rewrite Ht2, Ht1, Ho2, Ho1, Hn2, Hn1, <- app_assoc, andb_assoc. done.
Qed.

Lemma all_empty_entries (histories : list (list HistoryItem)) :
  forallb (fun h => match h with [] => true | _ => false end) histories = true ->
  map (fun h => match h with [] => false | _ => true end) histories
  = replicate (length histories) false.
Proof.
  induction histories as [|[|item hist] histories IH]; simpl; [done| |done].
  intros Hall. by rewrite IH.
Qed.

(** The table after a scan that has returned: what it was, the windows
    that had a used address, and the window that stopped the scan. *)
Lemma discover_keys_loop_Ok (fuel : nat) (srv : Server) (change : bool)
    (current_index : nat) (w w' : Wallet) :
  discover_keys_loop fuel srv change current_index w = Some (Ok w') ->
  exists l k,
    indicies w' change = indicies w change ++ l ++ replicate _GAP_LIMIT false /\
    length l = (k * _GAP_LIMIT)%nat /\
    indicies w' (negb change) = indicies w (negb change) /\
    new_history w' = new_history w.
Proof.
  revert current_index w.
  induction fuel as [|fuel IH]; intros current_index w; [done|].
  cbn [discover_keys_loop].
  destruct (_interpret_history srv _ change w) as [[w1 quit_flag]|e] eqn:Hwin;
    [|done].
  apply interpret_history_loop_Ok in Hwin as (Hflag & Ht1 & Ho1 & Hn1).
  rewrite andb_true_l in Hflag.
  destruct quit_flag.
  - intros [= <-]. exists [], 0%nat. rewrite Ht1.
    rewrite all_empty_entries by done.
    by rewrite length_map, length_seq.
  - intros Hloop. apply IH in Hloop as (l & k & Ht2 & Hl & Ho2 & Hn2).
    match type of Ht1 with _ = _ ++ ?win => exists (win ++ l), (S k) end.
    rewrite Ht2, Ht1, Ho2, Ho1, Hn2, Hn1.
    split; [by rewrite <- !app_assoc|]. split; [|done].
    rewrite length_app, length_map, length_map, length_seq, Hl. lia.
Qed.

Lemma discover_keys_Ok (fuel : nat) (srv : Server) (change : bool)
    (w w' : Wallet) :
  discover_keys fuel srv change w = Some (Ok w') ->
  exists l k,
    indicies w' change = indicies w change ++ l ++ replicate _GAP_LIMIT false /\
    length l = (k * _GAP_LIMIT)%nat /\
    indicies w' (negb change) = indicies w (negb change) /\
    new_history w' = true.
Proof.
  unfold discover_keys.
  destruct (discover_keys_loop fuel srv change 0 w) as [[w1|e]|] eqn:Hloop;
    [|done..].
  intros [= <-].
  apply discover_keys_loop_Ok in Hloop as (l & k & Ht & Hl & Ho & _).
  exists l, k. by destruct change.
Qed.

(** A table with an unused entry has a next unused key. *)
Lemma get_next_unused_key_is_Some (w : Wallet) (change : bool) :
  false ∈ indicies w change ->
  exists i,
    get_next_unused_key w change = Some (get_key i change) /\
    indicies w change !! i = Some false.
Proof.
  intros Hin. unfold get_next_unused_key.
  destruct (list_find_elem_of (fun is_used : bool => is_used = false)
              (indicies w change) false Hin eq_refl) as [[i b] Hfind].
  rewrite Hfind. exists i. split; [done|].
  by apply list_find_Some in Hfind as (? & -> & _).
Qed.

Lemma queue_fold_listen_subscribe (addrs : list Address) (c : Connection) :
  queue (fold_left listen_subscribe addrs c)
  = match last addrs with Some addr => Some addr | None => queue c end.
Proof.
  revert c. induction addrs as [|a addrs IH]; intros c; simpl; [done|].
  rewrite IH. destruct addrs as [|b addrs]; [done|].
  change (last (a :: b :: addrs)) with (last (b :: addrs)).
  destruct (last (b :: addrs)) as [addr|] eqn:Hlast; [done|].
  by apply last_None in Hlast.
Qed.

(** Discovery that returns has added a whole number of windows of 20
    entries to the table of its chain, the last of them all [False]; it has
    kept the entries that were there and the table of the other chain, and
    has set [new_history]. *)
Theorem discover_keys_ends_with_unused_window (fuel : nat) (srv : Server)
    (change : bool) (w w' : Wallet) :
  discover_keys fuel srv change w = Some (Ok w') ->
  (exists l k,
      indicies w' change = indicies w change ++ l ++ replicate 20 false /\
      length l = (20 * k)%nat) /\
  (forall i b, indicies w change !! i = Some b -> indicies w' change !! i = Some b) /\
  indicies w' (negb change) = indicies w (negb change) /\
  new_history w' = true.
Proof.
  intros Hdisc.
  apply discover_keys_Ok in Hdisc as (l & k & Ht & Hl & Ho & Hn).
  split; [|split; [|done]].
  - exists l, k. split; [done|]. rewrite Hl. unfold _GAP_LIMIT. lia.
  - intros i b Hi. rewrite Ht. by apply lookup_app_l_Some.
Qed.

(** After discovery of a chain the next unused key of that chain is
    there: once the change chain is discovered [mktx] gets as far as the
    fee estimate, and once the spend chain is discovered
    [listen_to_addresses] has a queue and consumes the notifications. *)
Theorem discover_keys_then_next_unused_key (fuel : nat) (srv : Server)
    (change : bool) (w w' : Wallet) :
  discover_keys fuel srv change w = Some (Ok w') ->
  (exists i,
      get_next_unused_key w' change = Some (get_key i change) /\
      indicies w' change !! i = Some false) /\
  (change = true ->
   forall srv' out_addr amount, (mktx srv' w' out_addr amount).1 <> []) /\
  (change = false ->
   forall c events,
     (listen_to_addresses c events w').2 = consume_queue events w').
Proof.
  intros Hdisc.
  apply discover_keys_Ok in Hdisc as (l & k & Ht & _).
  assert (false ∈ indicies w' change) as Hin.
  { rewrite Ht, !elem_of_app. right. right. apply elem_of_replicate.
    split; [done|]. unfold _GAP_LIMIT. lia. }
  destruct (get_next_unused_key_is_Some w' change Hin) as (i & Hkey & Hi).
  split; [by exists i|]. split.
  - intros -> srv' out_addr amount. rewrite mktx_unfold, Hkey. simpl.
    destruct (int_of_float _) as [fee|e]; [|done].
    by destruct (distribute_from_split_pool _ fee).
  - intros -> c events. unfold listen_to_addresses. cbn [snd].
    rewrite queue_fold_listen_subscribe. unfold get_all_known_addresses.
    rewrite Ht, !length_app, length_replicate.
    replace (length (indicies w false) + (length l + _GAP_LIMIT))%nat
      with (S (length (indicies w false) + length l + 19))%nat
      by (unfold _GAP_LIMIT; lia).
    rewrite seq_S, map_app. cbn [map]. by rewrite last_snoc.
Qed.

End DiscoveryResults.

Lemma discover_keys_ends_with_unused_window_witness :
  exists w' l,
    @discover_keys bench_keys bench_pycoin 2 server_2_5 false new_wallet
    = Some (Ok w') /\
    spend_indicies w' = l ++ replicate 20 false /\
    length (spend_indicies w') = 40%nat.
Proof.
  destruct (@discover_keys bench_keys bench_pycoin 2 server_2_5 false new_wallet)
    as [[w'|e]|] eqn:E; [|by vm_compute in E..].
  destruct (@discover_keys_ends_with_unused_window bench_keys bench_pycoin
              2 server_2_5 false new_wallet w' E) as ((l & k & Ht & Hl) & _).
  exists w', l. split; [done|]. split; [exact Ht|].
  vm_compute in E. by injection E as <-.
Defined.

Lemma discover_keys_then_next_unused_key_witness :
  exists w',
    @discover_keys bench_keys bench_pycoin 1 server_2_5 true new_wallet
    = Some (Ok w') /\
    get_next_unused_key w' true = Some (get_key 0 true).
Proof.
  destruct (@discover_keys bench_keys bench_pycoin 1 server_2_5 true new_wallet)
    as [[w'|e]|] eqn:E; [|by vm_compute in E..].
  destruct (@discover_keys_then_next_unused_key bench_keys bench_pycoin
              1 server_2_5 true new_wallet w' E) as ((i & Hkey & _) & _).
  exists w'. split; [done|].
  vm_compute in E. injection E as <-. done.
Defined.

(** ** The used addresses and the tables *)

Section UsedAddresses.
Context {keys : KeyTree} {lib : Pycoin}.

Lemma elem_of_get_all_used_addresses (w : Wallet) (addr : Address) :
  addr ∈ get_all_used_addresses w <-> is_Some (history w !! addr).
Proof.
  unfold get_all_used_addresses. rewrite list_elem_of_fmap. split.
  - intros ([a txs] & -> & Hin). apply elem_of_map_to_list in Hin. by exists txs.
  - intros [txs Htxs]. exists (addr, txs). split; [done|].
    by apply elem_of_map_to_list.
Qed.

(** The entries that are [True] after one more entry at the end. *)
Lemma table_true_after_append (w w' : Wallet) (change : bool) (b : bool) :
  indicies w' change = indicies w change ++ [b] ->
  indicies w' (negb change) = indicies w (negb change) ->
  forall c i,
    indicies w' c !! i = Some true <->
    indicies w c !! i = Some true \/
    (b = true /\ c = change /\ i = length (indicies w change)).
Proof.
  intros Ht Ho c i. destruct (decide (c = change)) as [->|Hc].
  - rewrite Ht, lookup_app_Some, list_lookup_singleton_Some. split.
    + intros [?|(Hlen & Hi & ->)]; [by left|right].
      repeat split; auto. lia.
    + intros [?|(-> & _ & ->)]; [by left|right].
      repeat split; auto. lia.
  - assert (c = negb change) as -> by (destruct c, change; done).
    rewrite Ho. split; [by left|]. intros [?|(_ & Heq & _)]; [done|].
    by destruct change.
Qed.

Lemma interpret_history_step_used (srv : Server) (change : bool)
    (st st' : Wallet * bool) (hist : list HistoryItem) :
  interpret_history_step srv change st hist = Ok st' ->
  history_matches_tables st.1 -> history_matches_tables st'.1.
Proof.
  destruct st as [w is_empty], st' as [w' is_empty']. simpl. intros Hstep Hw.
  apply interpret_history_step_Ok in Hstep as (_ & Ht & Ho & _ & Hh).
  intros addr. rewrite elem_of_get_all_used_addresses, Hh.
  specialize (Hw addr). rewrite elem_of_get_all_used_addresses in Hw.
  destruct hist as [|item hist].
  - rewrite Hw. split; intros (c & i & Hi & Ha); exists c, i; split; auto.
    + apply (table_true_after_append w w' change false Ht Ho). by left.
    + apply (table_true_after_append w w' change false Ht Ho) in Hi
        as [?|(? & _)]; done.
  - rewrite lookup_insert_is_Some, Hw. split.
    + intros [<-|[_ (c & i & Hi & Ha)]].
      * exists change, (length (indicies w change)). split; [|done].
        apply (table_true_after_append w w' change true Ht Ho). by right.
      * exists c, i. split; [|done].
        apply (table_true_after_append w w' change true Ht Ho). by left.
    + intros (c & i & Hi & Ha).
      apply (table_true_after_append w w' change true Ht Ho) in Hi
        as [Hi|(_ & -> & ->)].
      * destruct (decide (address (get_key (length (indicies w change)) change)
                          = addr)); [by left|].
        right. split; [done|]. by exists c, i.
      * by left.
Qed.

Lemma interpret_history_loop_used (srv : Server) (change : bool)
    (histories : list (list HistoryItem)) (st st' : Wallet * bool) :
  interpret_history_loop srv change histories st = Ok st' ->
  history_matches_tables st.1 -> history_matches_tables st'.1.
Proof.
  revert st. induction histories as [|hist histories IH]; intros st;
    cbn [interpret_history_loop].
  - by intros [= <-].
  - destruct (interpret_history_step srv change st hist) as [st1|e] eqn:Hstep;
      [|done].
    cbn [mbind result_bind]. intros Hloop Hst.
    apply (IH st1 Hloop). by eapply interpret_history_step_used.
Qed.

Lemma discover_keys_used (fuel : nat) (srv : Server) (change : bool)
    (w w' : Wallet) :
  discover_keys fuel srv change w = Some (Ok w') ->
  history_matches_tables w -> history_matches_tables w'.
Proof.
  unfold discover_keys.
  destruct (discover_keys_loop fuel srv change 0 w) as [[w1|e]|] eqn:Hloop;
    [|done..].
  intros [= <-] Hw. change (history_matches_tables w1).
  revert Hloop Hw. generalize 0%nat. revert w.
  induction fuel as [|fuel IH]; intros w current_index; [done|].
  cbn [discover_keys_loop].
  destruct (_interpret_history srv _ change w) as [[w2 quit_flag]|e] eqn:Hwin;
    [|done].
  intros Hloop Hw.
  assert (history_matches_tables w2) as Hw2.
  { by eapply (interpret_history_loop_used srv change _ (w, true) (w2, quit_flag)). }
  destruct quit_flag.
  - by injection Hloop as <-.
  - by eapply IH.
Qed.

Lemma discovered_history_matches_tables (w : Wallet) :
  discovered w -> history_matches_tables w.
Proof.
  induction 1 as [|fuel srv change w w' _ IH Hstep].
  - intros addr. rewrite elem_of_get_all_used_addresses. simpl. split.
    + intros [txs Htxs]. by rewrite lookup_empty in Htxs.
    + intros (c & i & Hi & _). by destruct c.
  - by eapply discover_keys_used.
Qed.

(** After any run of discoveries from a new wallet, the addresses
    [get_all_used_addresses] returns are those of the entries of the two
    tables that are [True], and no other. *)
Theorem discovered_used_addresses (w : Wallet) (addr : Address) :
  discovered w ->
  addr ∈ get_all_used_addresses w <->
  exists change i,
    indicies w change !! i = Some true /\ address (get_key i change) = addr.
Proof. intros Hw. by apply discovered_history_matches_tables. Qed.

(** The known limit of the scan: with the first window without a used
    address at [k], discovery from a new wallet records [20 (k + 1)]
    entries, and the address of an index past them is not among the used
    addresses, whether it has a history or not (keys of different places
    having different addresses). *)
Theorem discover_keys_misses_past_gap (srv : Server) (change : bool)
    (k j fuel : nat) :
  (forall c c' i i', address (get_key i c) = address (get_key i' c') ->
                     c = c' /\ i = i') ->
  well_formed srv ->
  (forall i, (i < k)%nat -> window_empty srv change i = false) ->
  window_empty srv change k = true ->
  (k < fuel)%nat ->
  (20 * (k + 1) <= j)%nat ->
  exists w',
    discover_keys fuel srv change new_wallet = Some (Ok w') /\
    length (indicies w' change) = (20 * (k + 1))%nat /\
    indicies w' change !! j = None /\
    address (get_key j change) ∉ get_all_used_addresses w'.
Proof.
  intros Hinj Hwf Hfull Hempty Hfuel Hj.
  destruct (discover_keys_loop_halts srv change k 0 fuel new_wallet
              Hwf Hfull Hempty Hfuel) as (w1 & Hloop & Ht & Ho).
  assert (discover_keys fuel srv change new_wallet
          = Some (Ok (set_new_history true w1))) as Hdisc.
  { unfold discover_keys. change (0 * _GAP_LIMIT)%nat with 0%nat in Hloop.
    by rewrite Hloop. }
  exists (set_new_history true w1). split; [exact Hdisc|].
  assert (length (indicies (set_new_history true w1) change)
          = (20 * (k + 1))%nat) as Hlen.
  { replace (indicies (set_new_history true w1) change)
      with (indicies w1 change) by (by destruct change).
    rewrite Ht, length_app, length_map, length_seq.
    replace (indicies new_wallet change) with (@nil bool) by (by destruct change).
    unfold _GAP_LIMIT. simpl length. lia. }
  split; [exact Hlen|].
  assert (indicies (set_new_history true w1) change !! j = None) as Hnone.
  { apply lookup_ge_None. lia. }
  split; [exact Hnone|].
  intros Hin.
  apply (discover_keys_used _ _ _ _ _ Hdisc
           (discovered_history_matches_tables _ discovered_new)) in Hin
    as (c & i & Hi & Ha).
  apply Hinj in Ha as [-> ->]. congruence.
Qed.

(** Whatever the wallet does, a table never gets shorter and an entry
    that is [True] stays [True]. *)
Theorem tables_grow_monotonically (w w' : Wallet) (c : bool) :
  rtc wallet_step w w' ->
  (length (indicies w c) <= length (indicies w' c))%nat /\
  (forall i, indicies w c !! i = Some true -> indicies w' c !! i = Some true).
Proof.
  induction 1 as [w|w w1 w' Hstep _ [IHlen IHtrue]]; [done|].
  assert ((length (indicies w c) <= length (indicies w1 c))%nat /\
          (forall i, indicies w c !! i = Some true ->
                     indicies w1 c !! i = Some true)) as [Hlen Htrue].
  { destruct Hstep as [fuel srv change w w1 Hdisc|srv addr w w1 Hnotify
                       |srv addr amount txid w w1 Hspend].
    - apply discover_keys_Ok in Hdisc as (l & k & Ht & _ & Ho & _).
      destruct (decide (c = change)) as [->|Hc].
      + rewrite Ht, length_app. split; [lia|].
        intros i Hi. by apply lookup_app_l_Some.
      + assert (c = negb change) as -> by (destruct c, change; done).
        by rewrite Ho.
    - unfold dispatch_result in Hnotify.
      destruct (address_get_history srv addr) as [|item rest]; [done|].
      destruct (_get_utxos srv addr) as [us|e] eqn:Hus.
      2: { unfold _interpret_new_history in Hnotify. by rewrite Hus in Hnotify. }
      destruct (interpret_new_history_table srv addr item false w us Hus)
        as (w2 & Hw2 & _ & _ & Ho & Ht).
      rewrite Hw2 in Hnotify. injection Hnotify as <-.
      destruct c.
      + change (indicies w2 true = indicies w true) in Ho.
        change (indicies (set_new_history true w2) true)
          with (indicies w2 true). by rewrite Ho.
      + change (indicies (set_new_history true w2) false)
          with (indicies w2 false).
        rewrite Ht. destruct (list_find _ _) as [[? i']|].
        * rewrite length_insert. split; [done|]. intros i Hi.
          destruct (decide (i = i')) as [->|Hne].
          -- apply list_lookup_insert_eq. by eapply lookup_lt_Some.
          -- by rewrite list_lookup_insert_ne.
        * rewrite length_app. split; [lia|]. intros i Hi.
          by apply lookup_app_l_Some.
    - apply spend_Ok in Hspend as (tx & out & _ & _ & _ & _ & _ & Hs & Hc).
      destruct c; simpl; by rewrite ?Hs, ?Hc. }
  split; [lia|auto].
Qed.

End UsedAddresses.

Lemma bench_keys_inj (c c' : bool) (i i' : nat) :
  @address bench_keys (get_key i c) = @address bench_keys (get_key i' c') ->
  c = c' /\ i = i'.
Proof.
  simpl. destruct c, c'; simpl; intros H; try discriminate;
    injection H as H; apply pretty_nat_inj in H; by subst.
Qed.

Lemma discovered_used_addresses_witness :
  "s5" ∈ get_all_used_addresses bench_wallet <->
  exists change i,
    indicies bench_wallet change !! i = Some true /\
    @address bench_keys (get_key i change) = "s5".
Proof.
  apply (@discovered_used_addresses bench_keys bench_pycoin).
  destruct bench_wallet_discovered as (w & Hspend & Hchange).
  eapply discovered_step; [|exact Hchange].
  eapply discovered_step; [|exact Hspend].
  apply discovered_new.
Defined.

Lemma discover_keys_misses_past_gap_witness :
  (@address_get_history server_25 (@address bench_keys (get_key 25 false)) <> []) /\
  exists w',
    @discover_keys bench_keys bench_pycoin 1 server_25 false new_wallet
    = Some (Ok w') /\
    length (spend_indicies w') = 20%nat /\
    @address bench_keys (get_key 25 false) ∉ get_all_used_addresses w'.
Proof.
  split; [by vm_compute|].
  destruct (@discover_keys_misses_past_gap bench_keys bench_pycoin
              server_25 false 0 25 1) as (w' & Hw' & Hlen & _ & Hnot).
  - apply bench_keys_inj.
  - apply bench_server_well_formed.
  - intros i Hi. lia.
  - by vm_compute.
  - lia.
  - lia.
  - by exists w'.
Defined.

Lemma tables_grow_monotonically_witness :
  (length (indicies new_wallet false) <= length (indicies bench_wallet false))%nat /\
  (forall i, indicies new_wallet false !! i = Some true ->
             indicies bench_wallet false !! i = Some true).
Proof.
  apply (@tables_grow_monotonically bench_keys bench_pycoin).
  destruct bench_wallet_discovered as (w & Hspend & Hchange).
  eapply rtc_l; [eapply step_discover; exact Hspend|].
  eapply rtc_l; [eapply step_discover; exact Hchange|].
  apply rtc_refl.
Defined.

(** ** Notifications *)

Section Notifications.
Context {keys : KeyTree} {lib : Pycoin}.

(** What [dispatch_result] has done when it returns. *)
Lemma dispatch_result_Ok (srv : Server) (addr : Address) (w w' : Wallet) :
  dispatch_result srv addr w = Ok w' ->
  exists item rest us,
    address_get_history srv addr = item :: rest /\
    _get_utxos srv addr = Ok us /\
    utxos w' = utxos w ++ us /\
    balance w' = (balance w + _get_balance srv addr)%Q /\
    history w'
    = <[addr := default [] (history w !! addr) ++ [transaction_get srv (tx_hash item)]]>
        (history w) /\
    new_history w' = true.
Proof.
  unfold dispatch_result.
  destruct (address_get_history srv addr) as [|item rest]; [done|].
  unfold _interpret_new_history.
  destruct (_get_utxos srv addr) as [us|e]; [|done]. simpl.
  intros [= <-]. exists item, rest, us.
  destruct (history w !! addr) as [old|]; simpl;
    destruct (list_find _ _) as [[? i]|]; simpl;
    rewrite ?utxos_set_indicies, ?balance_set_indicies;
    repeat split; by destruct (list_find _ _) as [[? ?]|].
Qed.

Lemma dispatch_result_succeeds (srv : Server) (addr : Address) (w : Wallet)
    (item : HistoryItem) (rest : list HistoryItem) (us : list Spendable) :
  address_get_history srv addr = item :: rest ->
  _get_utxos srv addr = Ok us ->
  exists w', dispatch_result srv addr w = Ok w'.
Proof.
  intros Hhist Hus. unfold dispatch_result. rewrite Hhist.
  destruct (interpret_new_history_table srv addr item false w us Hus)
    as (w' & -> & _). by eexists.
Qed.

Lemma consume_queue_app (events1 events2 : list (Server * Address)) (w : Wallet) :
  consume_queue (events1 ++ events2) w
  = match consume_queue events1 w with
    | Ok w1 => consume_queue events2 w1
    | Raise e => Raise e
    end.
Proof.
  revert w. induction events1 as [|[srv addr] events1 IH]; intros w; simpl;
    [done|].
  destruct (dispatch_result srv addr w) as [w1|e]; simpl; [apply IH|done].
Qed.

(** Each notification takes in again everything the server lists for the
    address: after two notifications for an address, with the same
    answers, its unspent outputs are held twice over (so an output is held
    more than once) and its balance is counted twice. *)
Theorem dispatch_result_takes_outputs_again (srv : Server) (addr : Address)
    (w w1 : Wallet) :
  dispatch_result srv addr w = Ok w1 ->
  exists us w2,
    _get_utxos srv addr = Ok us /\
    utxos w1 = utxos w ++ us /\
    dispatch_result srv addr w1 = Ok w2 /\
    utxos w2 = utxos w ++ us ++ us /\
    balance w2 = (balance w + _get_balance srv addr + _get_balance srv addr)%Q /\
    (us <> [] -> ~ NoDup (utxos w2)).
Proof.
  intros H1.
  destruct (dispatch_result_Ok _ _ _ _ H1)
    as (item & rest & us & Hhist & Hus & Hu1 & Hb1 & _).
  destruct (dispatch_result_succeeds srv addr w1 item rest us Hhist Hus)
    as [w2 H2].
  destruct (dispatch_result_Ok _ _ _ _ H2)
    as (item' & rest' & us' & _ & Hus' & Hu2 & Hb2 & _).
  rewrite Hus in Hus'. injection Hus' as <-.
  exists us, w2. repeat split; auto.
  - by rewrite Hu2, Hu1, <- app_assoc.
  - by rewrite Hb2, Hb1.
  - intros Hne Hnodup. rewrite Hu2, Hu1, <- app_assoc in Hnodup.
    apply NoDup_app in Hnodup as (_ & _ & Hnodup).
    apply NoDup_app in Hnodup as (_ & Hdisj & _).
    destruct us as [|u us]; [done|].
    apply (Hdisj u); apply elem_of_cons; by left.
Qed.

(** A notification records one transaction, the first of the history the
    server answers, after the transactions already stored for the address,
    and sets [new_history]; what is stored for other addresses stays. *)
Theorem dispatch_result_records_first_entry (srv : Server) (addr : Address)
    (w w' : Wallet) :
  dispatch_result srv addr w = Ok w' ->
  exists item rest,
    address_get_history srv addr = item :: rest /\
    history w' !! addr
    = Some (default [] (history w !! addr) ++ [transaction_get srv (tx_hash item)]) /\
    (forall addr', addr' <> addr -> history w' !! addr' = history w !! addr') /\
    new_history w' = true.
Proof.
  intros Hw'.
  destruct (dispatch_result_Ok _ _ _ _ Hw')
    as (item & rest & us & Hhist & _ & _ & _ & Hh & Hn).
  exists item, rest. rewrite Hh. repeat split; auto.
  - apply lookup_insert_eq.
  - intros addr' Hne. by apply lookup_insert_ne.
Qed.

(** A notification for an address whose history comes back empty raises
    [IndexError], and the loop that consumes the queue ends there: the
    notifications after it are not handled. *)
Theorem consume_queue_stops_at_empty_history (events1 events2 : list (Server * Address))
    (srv : Server) (addr : Address) (w w1 : Wallet) :
  consume_queue events1 w = Ok w1 ->
  address_get_history srv addr = [] ->
  consume_queue (events1 ++ (srv, addr) :: events2) w = Raise IndexError.
Proof.
  intros H1 Hhist. rewrite consume_queue_app, H1. simpl.
  unfold dispatch_result. by rewrite Hhist.
Qed.

(** With an address known on the spend chain, [listen_to_addresses] holds
    the queue of its last subscription, the one for the last index, and
    handles the notifications. *)
Theorem listen_to_addresses_consumes (c : Connection)
    (events : list (Server * Address)) (w : Wallet) :
  spend_indicies w <> [] ->
  queue (listen_to_addresses c events w).1
  = Some (address (get_key (length (spend_indicies w) - 1) false)) /\
  (listen_to_addresses c events w).2 = consume_queue events w.
Proof.
  intros Hne. unfold listen_to_addresses. cbn [fst snd].
  rewrite queue_fold_listen_subscribe. unfold get_all_known_addresses.
  cbn [indicies].
  destruct (spend_indicies w) as [|b l]; [done|]. cbn [length].
  rewrite seq_S, map_app. cbn [map]. rewrite last_snoc.
  split; [|done]. do 3 f_equal. simpl. lia.
Qed.

End Notifications.

Lemma dispatch_result_takes_outputs_again_witness :
  exists w1 w2,
    @dispatch_result bench_keys bench_pycoin server_2_5 "s5" bench_wallet = Ok w1 /\
    @dispatch_result bench_keys bench_pycoin server_2_5 "s5" w1 = Ok w2 /\
    ~ NoDup (utxos w2).
Proof.
  destruct (@dispatch_result bench_keys bench_pycoin server_2_5 "s5" bench_wallet)
    as [w1|e] eqn:E; [|by vm_compute in E].
  destruct (@dispatch_result_takes_outputs_again bench_keys bench_pycoin
              server_2_5 "s5" bench_wallet w1 E)
    as (us & w2 & Hus & _ & Hw2 & _ & _ & Hdup).
  exists w1, w2. split; [done|]. split; [exact Hw2|].
  apply Hdup. intros ->. by vm_compute in Hus.
Defined.

Lemma dispatch_result_records_first_entry_witness :
  exists w' item,
    @dispatch_result bench_keys bench_pycoin server_2_5 "s5" unused_wallet = Ok w' /\
    history w' !! "s5" = Some [transaction_get server_2_5 (tx_hash item)].
Proof.
  destruct (@dispatch_result bench_keys bench_pycoin server_2_5 "s5" unused_wallet)
    as [w'|e] eqn:E; [|by vm_compute in E].
  destruct (@dispatch_result_records_first_entry bench_keys bench_pycoin
              server_2_5 "s5" unused_wallet w' E)
    as (item & rest & _ & Hh & _).
  exists w', item. split; [done|]. exact Hh.
Defined.

Lemma consume_queue_stops_at_empty_history_witness :
  @consume_queue bench_keys bench_pycoin
    ([] ++ (server_2_5, "s0") :: [(server_2_5, "s5")]) unused_wallet
  = Raise IndexError.
Proof.
  by apply (@consume_queue_stops_at_empty_history bench_keys bench_pycoin
              [] [(server_2_5, "s5")] server_2_5 "s0" unused_wallet unused_wallet).
Defined.

Lemma listen_to_addresses_consumes_witness :
  queue (@listen_to_addresses bench_keys bench_pycoin new_connection []
           unused_wallet).1
  = Some "s19".
Proof.
  destruct (@listen_to_addresses_consumes bench_keys bench_pycoin
              new_connection [] unused_wallet) as [Hq _].
  - by vm_compute.
  - rewrite Hq. by vm_compute.
Defined.

(** ** More on spending *)

Section SpendAgain.
Context {keys : KeyTree} {lib : Pycoin}.

Lemma select_steps_stopped (amount : Q) (l : list Spendable)
    (st : list Spendable * list Address * Q) :
  (amount <= st.2)%Q -> fold_left (select_step amount) l st = st.
Proof.
  intros Hst. induction l as [|u l IH]; simpl; [done|].
  destruct st as [[spendables in_addrs] total_out]. simpl in *.
  apply Qltb_ge in Hst. by rewrite Hst.
Qed.

Lemma select_coins_app_reached (l l' : list Spendable) (amount : Q) :
  (amount <= (select_coins l amount).2)%Q ->
  select_coins (l ++ l') amount = select_coins l amount.
Proof.
  intros Hreached. unfold select_coins. rewrite fold_left_app.
  by apply select_steps_stopped.
Qed.

(** The outputs a spend has used stay where they were in the list, so
    that the next selection finds them again: for every amount the
    outputs held before the spend could reach, coin selection after the
    spend selects what it selected before, the outputs just spent among
    them. *)
Theorem spend_leaves_inputs_selectable (srv : Server) (addr : Address)
    (amount amount' : Q) (w w' : Wallet) (txid : TxId) :
  (spend srv addr amount w).2 = Ok (txid, w') ->
  (amount' <= (select_coins (utxos w) amount').2)%Q ->
  select_coins (utxos w') amount' = select_coins (utxos w) amount'.
Proof.
  intros Hspend Hreached.
  apply spend_Ok in Hspend as (tx & out & _ & _ & _ & -> & _).
  by apply select_coins_app_reached.
Qed.

(** A spend that returns has broadcast the transaction [mktx] built, after
    the calls of [mktx], returns what the server answered, has put the
    transaction after those already stored for the destination address,
    and has set [new_history]; the tables of both chains are as they
    were. *)
Theorem spend_records_transaction (srv : Server) (addr : Address) (amount : Q)
    (w w' : Wallet) (txid : TxId) :
  (spend srv addr amount w).2 = Ok (txid, w') ->
  exists tx,
    (mktx srv w addr amount).2 = Ok tx /\
    (spend srv addr amount w).1 = (mktx srv w addr amount).1 ++ [CallBroadcast] /\
    txid = transaction_broadcast srv tx /\
    history w' = <[addr := default [] (history w !! addr) ++ [tx]]> (history w) /\
    spend_indicies w' = spend_indicies w /\
    change_indicies w' = change_indicies w /\
    new_history w' = true.
Proof.
  unfold spend. destruct (mktx srv w addr amount) as [log [tx|e]]; simpl; [|done].
  destruct (last (tx_outs_as_spendable tx)) as [out|] eqn:Hlast; simpl; [|done].
  intros [= <- <-]. exists tx.
  destruct (history w !! addr); simpl; by repeat split.
Qed.

(** The keys [mktx] hands to [sign_tx] are those of the entries of the
    two tables whose address is the address of a selected output, and no
    other; with no such entry it hands over none. *)
Theorem wifs_of_known_keys (w : Wallet) (in_addrs : list Address) (x : string) :
  x ∈ wifs_of w in_addrs <->
  exists change i,
    (i < length (indicies w change))%nat /\
    address (get_key i change) ∈ in_addrs /\
    x = wif (get_key i change).
Proof.
  unfold wifs_of. rewrite list_elem_of_In, in_flat_map. split.
  - intros (change & _ & Hx). apply in_flat_map in Hx as (i & Hi & Hx).
    apply in_seq in Hi. exists change, i.
    destruct (bool_decide_reflect (address (get_key i change) ∈ in_addrs))
      as [Hin|_]; [|done].
    destruct Hx as [<-|[]]. repeat split; auto. lia.
  - intros (change & i & Hi & Hin & ->). exists change. split.
    { destruct change; simpl; auto. }
    apply in_flat_map. exists i. split; [apply in_seq; lia|].
    rewrite bool_decide_eq_true_2 by done. by left.
Qed.

End SpendAgain.

Lemma spend_leaves_inputs_selectable_witness :
  exists txid w',
    (@spend bench_keys bench_pycoin server_2_5 "dest" (4 # 10) bench_wallet).2
    = Ok (txid, w') /\
    (@select_coins bench_pycoin (utxos w') ((4 # 10) * inject_Z _COIN)).1.1
    = [{| sp_coin_value := 100000000; sp_script := "s2";
          sp_tx_hash := "tx()(s2)"; sp_tx_out_index := 0 |}].
Proof.
  destruct (@spend bench_keys bench_pycoin server_2_5 "dest" (4 # 10) bench_wallet)
    as [log [[txid w']|e]] eqn:E; [|by vm_compute in E].
  exists txid, w'. split; [done|].
  rewrite (@spend_leaves_inputs_selectable bench_keys bench_pycoin server_2_5
             "dest" (4 # 10) ((4 # 10) * inject_Z _COIN) bench_wallet w' txid).
  - by vm_compute.
  - by rewrite E.
  - by vm_compute.
Defined.

Lemma spend_records_transaction_witness :
  exists txid w' tx,
    (@spend bench_keys bench_pycoin server_2_5 "dest" (4 # 10) bench_wallet).2
    = Ok (txid, w') /\
    history w' !! "dest" = Some [tx].
Proof.
  destruct (@spend bench_keys bench_pycoin server_2_5 "dest" (4 # 10) bench_wallet)
    as [log [[txid w']|e]] eqn:E; [|by vm_compute in E].
  destruct (@spend_records_transaction bench_keys bench_pycoin server_2_5
              "dest" (4 # 10) bench_wallet w' txid)
    as (tx & _ & _ & _ & Hh & _).
  { by rewrite E. }
  exists txid, w', tx. split; [done|].
  rewrite Hh, lookup_insert_eq. reflexivity.
Defined.

(** ** Fetching the unspent outputs *)

Lemma mapM_result_cons {A B} (f : A -> result B) (x : A) (l : list A) :
  mapM f (x :: l)
  = match f x with
    | Ok y => match mapM f l with Ok k => Ok (y :: k) | Raise e => Raise e end
    | Raise e => Raise e
    end.
Proof. reflexivity. Qed.

Lemma mapM_result_Ok {A B} (f : A -> result B) (l : list A) (l' : list B) :
  mapM f l = Ok l' <-> Forall2 (fun x y => f x = Ok y) l l'.
Proof.
  revert l'. induction l as [|x l IH]; intros l'.
  - split.
    + intros [= <-]. constructor.
    + intros Hl. by apply Forall2_nil_inv_l in Hl as ->.
  - rewrite mapM_result_cons. split.
    + destruct (f x) as [y|e] eqn:Hx; [|done].
      destruct (mapM f l) as [k|e] eqn:Hl; [|done].
      intros [= <-]. constructor; [done|]. by apply IH.
    + intros Hall. apply Forall2_cons_inv_l in Hall
        as (y' & k' & Hy & Hk & ->).
      apply IH in Hk. by rewrite Hy, Hk.
Qed.

Lemma mapM_result_Raise {A B} (f : A -> result B) (l : list A) (e : exn) :
  mapM f l = Raise e -> Exists (fun x => f x = Raise e) l.
Proof.
  induction l as [|x l IH]; [done|].
  rewrite mapM_result_cons.
  destruct (f x) as [y|e'] eqn:Hx.
  - destruct (mapM f l) as [k|e''] eqn:Hl; [done|].
    intros [= ->]. right. by apply IH.
  - intros [= ->]. by left.
Qed.

(** [_get_utxos] returns, for each entry the server lists and in the same
    order, the output at the listed position of the listed transaction,
    with the value and script that transaction gives it; it raises
    [IndexError], and nothing else, when an entry lists a position the
    transaction does not have. *)
Theorem get_utxos_outcome {lib : Pycoin} (srv : Server) (addr : Address) :
  match _get_utxos srv addr with
  | Ok us =>
      Forall2 (fun unspent s =>
                 exists o,
                   txs_out (transaction_get srv (u_tx_hash unspent))
                     !! u_tx_pos unspent = Some o /\
                   s = {| sp_coin_value := coin_value o; sp_script := script o;
                          sp_tx_hash := tx_id (transaction_get srv (u_tx_hash unspent));
                          sp_tx_out_index := u_tx_pos unspent |})
              (address_listunspent srv addr) us
  | Raise e =>
      e = IndexError /\
      Exists (fun unspent =>
                (length (txs_out (transaction_get srv (u_tx_hash unspent)))
                 <= u_tx_pos unspent)%nat)
             (address_listunspent srv addr)
  end.
Proof.
  destruct (_get_utxos srv addr) as [us|e] eqn:Hus; unfold _get_utxos in Hus.
  - apply mapM_result_Ok in Hus. eapply Forall2_impl; [exact Hus|].
    intros unspent s. simpl. unfold tx_outs_as_spendable.
    rewrite list_lookup_imap.
    destruct (txs_out _ !! u_tx_pos unspent) as [o|]; simpl; [|done].
    intros [= <-]. by exists o.
  - apply mapM_result_Raise in Hus. split.
    + apply Exists_exists in Hus as (unspent & _ & Hraise).
      destruct (tx_outs_as_spendable _ !! _); congruence.
    + eapply Exists_impl; [exact Hus|].
      intros unspent. simpl. unfold tx_outs_as_spendable.
      rewrite list_lookup_imap.
      destruct (txs_out _ !! u_tx_pos unspent) as [o|] eqn:Ho; simpl; [done|].
      intros _. by apply lookup_ge_None.
Qed.

(** ** Printing the wallet *)

Lemma string_app_assoc (s1 s2 s3 : string) :
  (s1 +:+ s2) +:+ s3 = s1 +:+ (s2 +:+ s3).
Proof.
  induction s1 as [|c s1 IH]; [reflexivity|].
  change (String c ((s1 +:+ s2) +:+ s3) = String c (s1 +:+ s2 +:+ s3)).
  by rewrite IH.
Qed.

Lemma wallet_str_Ok {keys : KeyTree} {repr : Repr} (chain : Chain)
    (w : Wallet) (key : Key) :
  get_next_unused_key w false = Some key ->
  exists body,
    wallet_str chain w
    = Ok (body +:+ nl +:+ "Your current address: " +:+ address key).
Proof.
  intros Hkey. unfold wallet_str. rewrite Hkey.
  exists (String.concat ""
            [nl +:+ "XPUB: " +:+ hwif;
             nl +:+ "History:" +:+ nl +:+ repr_history (history w);
             nl +:+ "UTXOS:" +:+ nl +:+ repr_utxos (utxos w);
             nl +:+ "Balance: " +:+ str_decimal (balance w) +:+ " "
                +:+ upper (chain_1209k chain)]).
  cbn [app String.concat]. rewrite !string_app_assoc. reflexivity.
Qed.

(** [str(wallet)] raises [AttributeError] exactly when no entry of the
    spend chain's table is unused, as for a new wallet; otherwise the text
    ends with the address of the first unused index. *)
Theorem wallet_str_needs_unused_key {keys : KeyTree} {repr : Repr}
    (chain : Chain) (w : Wallet) :
  (wallet_str chain w = Raise AttributeError <->
   Forall (fun is_used => is_used = true) (spend_indicies w)) /\
  (forall s,
      wallet_str chain w = Ok s ->
      exists i body,
        spend_indicies w !! i = Some false /\
        (forall j, (j < i)%nat -> spend_indicies w !! j = Some true) /\
        s = body +:+ nl +:+ "Your current address: " +:+ address (get_key i false)).
Proof.
  unfold wallet_str. split.
  - rewrite <- (get_next_unused_key_None w false).
    by destruct (get_next_unused_key w false).
  - intros s. unfold get_next_unused_key. simpl.
    destruct (list_find _ (spend_indicies w)) as [[i b]|] eqn:Hfind; [|done].
    apply list_find_Some in Hfind as (Hi & -> & Hbefore).
    intros [= <-]. exists i.
    exists (String.concat ""
              [nl +:+ "XPUB: " +:+ hwif;
               nl +:+ "History:" +:+ nl +:+ repr_history (history w);
               nl +:+ "UTXOS:" +:+ nl +:+ repr_utxos (utxos w);
               nl +:+ "Balance: " +:+ str_decimal (balance w) +:+ " "
                  +:+ upper (chain_1209k chain)]).
    split; [done|]. split.
    + intros j Hj.
      destruct (lookup_lt_is_Some_2 (spend_indicies w) j) as [[] Hb]; [|done|].
      * apply lookup_lt_Some in Hi. lia.
      * by destruct (Hbefore j false Hb Hj).
    + cbn [app String.concat]. rewrite !string_app_assoc. reflexivity.
Qed.

(** ** The derivation paths *)

Lemma pretty_N_char_no_H (x : N) : pretty_N_char x <> "H"%char.
Proof. unfold pretty_N_char. by repeat case_match. Qed.

Lemma pretty_N_go_no_H (x : N) (s : string) : no_H s -> no_H (pretty_N_go x s).
Proof.
  revert s. induction (N.lt_wf_0 x) as [x _ IH]. intros s Hs.
  destruct (decide (x = 0%N)) as [->|Hx].
  - by rewrite pretty_N_go_0.
  - rewrite pretty_N_go_step by lia. apply IH.
    + apply N.div_lt; lia.
    + split; [apply pretty_N_char_no_H|done].
Qed.

Lemma pretty_N_no_H (x : N) : no_H (pretty x).
Proof.
  unfold pretty, pretty_N. case_decide; [by repeat split|].
  by apply pretty_N_go_no_H.
Qed.

Lemma pretty_Z_no_H (x : Z) : no_H (pretty x).
Proof.
  destruct x as [|p|p]; simpl.
  - by repeat split.
  - apply (pretty_N_no_H (N.pos p)).
  - split; [done|]. apply (pretty_N_no_H (N.pos p)).
Qed.

Lemma app_H_inj (s1 s2 r1 r2 : string) :
  no_H s1 -> no_H s2 ->
  s1 +:+ String "H" r1 = s2 +:+ String "H" r2 -> s1 = s2 /\ r1 = r2.
Proof.
  revert s2. induction s1 as [|c1 s1 IH]; intros [|c2 s2]; simpl.
  - by intros _ _ [= ->].
  - intros _ [Hc _] [= <- _]. done.
  - intros [Hc _] _ [= -> _]. done.
  - intros [_ H1] [_ H2] [= -> Heq]. by destruct (IH s2 H1 H2 Heq) as [-> ->].
Qed.

(** The two roots of a wallet hang from different paths, and wallets of
    different coin types or accounts from different paths: the path of a
    spend root is never the path of a change root, and each of the two
    paths determines the coin type and the account. *)
Theorem root_paths_distinct (chain chain' : Chain) (account account' : Z) :
  root_spend_path chain account <> root_change_path chain' account' /\
  (root_spend_path chain account = root_spend_path chain' account' ->
   bip44 chain = bip44 chain' /\ account = account') /\
  (root_change_path chain account = root_change_path chain' account' ->
   bip44 chain = bip44 chain' /\ account = account').
Proof.
  assert (forall last last' : string,
             account_path chain account +:+ last
             = account_path chain' account' +:+ last' ->
             bip44 chain = bip44 chain' /\ account = account' /\ last = last')
    as Hpath.
  { intros last last'. unfold account_path.
    rewrite !string_app_assoc. simpl. intros [= Heq].
    apply app_H_inj in Heq as [Hcoin [= Heq]]; [|apply pretty_Z_no_H..].
    apply app_H_inj in Heq as [Haccount [= Hlast]]; [|apply pretty_Z_no_H..].
    apply pretty_Z_inj in Hcoin. apply pretty_Z_inj in Haccount. done. }
  unfold root_spend_path, root_change_path. split; [|split].
  - intros Heq. by apply Hpath in Heq as (_ & _ & ?).
  - intros Heq. by apply Hpath in Heq as (? & ? & _).
  - intros Heq. by apply Hpath in Heq as (? & ? & _).
Qed.

(** ** Finding a server *)

Lemma string_prefix_app (sub s : string) :
  String.prefix sub s = true <-> exists post, s = sub +:+ post.
Proof.
  revert s. induction sub as [|c sub IH]; intros s.
  - split; [|by destruct s]. intros _. by exists s.
  - destruct s as [|c' s].
    + split; [done|]. by intros [post [=]].
    + change (String.prefix (String c sub) (String c' s))
        with (if ascii_dec c c' then String.prefix sub s else false).
      destruct (ascii_dec c c') as [->|Hc].
      * rewrite IH. split.
        -- intros [post ->]. by exists post.
        -- intros [post [= ->]]. by exists post.
      * split; [done|]. intros [post [= -> _]]. done.
Qed.

(** [str_in] is Python's [in] on strings. *)
Lemma str_in_app (sub s : string) :
  str_in sub s = true <-> exists pre post, s = pre +:+ sub +:+ post.
Proof.
  induction s as [|c s IH].
  - change (str_in sub "") with (String.prefix sub "" || false).
    rewrite orb_false_r, string_prefix_app. split.
    + intros [post ->]. by exists "", post.
    + intros [[|c pre] [post Heq]]; [by exists post|done].
  - change (str_in sub (String c s))
      with (String.prefix sub (String c s) || str_in sub s).
    rewrite orb_true_iff, string_prefix_app, IH. split.
    + intros [[post ->]|(pre & post & ->)].
      * by exists "", post.
      * by exists (String c pre), post.
    + intros ([|c' pre] & post & Heq).
      * left. by exists post.
      * right. injection Heq as -> ->. by exists pre, post.
Qed.

Lemma scrape_loop_Ok (int : string -> option Z) (table_data : list string)
    (pre tds : list string) (servers out : list (string * Z)) :
  table_data = pre ++ tds ->
  scrape_loop int table_data (length pre) tds servers = Ok out ->
  forall host port,
    (host, port) ∈ out <->
    (host, port) ∈ servers \/
    exists i, (length pre <= i)%nat /\ open_row int table_data i host port.
Proof.
  revert pre servers. induction tds as [|td tds IH]; intros pre servers Htable.
  - intros [= <-] host port. split; [by left|].
    intros [?|(i & Hi & Hrow & _)]; [done|].
    apply lookup_lt_Some in Hrow. subst table_data.
    rewrite app_nil_r in Hrow. lia.
  - assert (table_data !! length pre = Some td) as Htd.
    { subst table_data. by rewrite lookup_app_r, Nat.sub_diag by lia. }
    assert (table_data = (pre ++ [td]) ++ tds) as Htable'.
    { by rewrite <- app_assoc. }
    assert (length (pre ++ [td]) = S (length pre)) as Hlen.
    { rewrite length_app. simpl. lia. }
    specialize (IH (pre ++ [td])). rewrite Hlen in IH.
    cbn [scrape_loop].
    destruct (str_in ".onion" td) eqn:Honion.
    + destruct (table_data !! (length pre + 1)%nat) as [port_text|] eqn:Hport;
        [|done].
      destruct (int port_text) as [port'|] eqn:Hint; [|done].
      destruct (table_data !! (length pre + 7)%nat) as [status|] eqn:Hstatus;
        [|done].
      intros Hloop host port. rewrite (IH _ Htable' Hloop host port).
      destruct (String.eqb status "open") eqn:Hopen.
      * apply String.eqb_eq in Hopen as ->.
        rewrite elem_of_app, list_elem_of_singleton. split.
        -- intros [[?|[= -> ->]]|(i & Hi & Hrow)].
           ++ by left.
           ++ right. exists (length pre). split; [lia|].
              split; [done|]. split; [done|]. split; [|done].
              by exists port_text.
           ++ right. exists i. split; [lia|done].
        -- intros [?|(i & Hi & Hrow)]; [by left; left|].
           destruct (decide (i = length pre)) as [->|Hne].
           ++ left. right.
              destruct Hrow as (Hhost & _ & (port_text' & Hport' & Hint') & _).
              congruence.
           ++ right. exists i. split; [lia|done].
      * apply String.eqb_neq in Hopen. split.
        -- intros [?|(i & Hi & Hrow)]; [by left|].
           right. exists i. split; [lia|done].
        -- intros [?|(i & Hi & Hrow)]; [by left|].
           destruct (decide (i = length pre)) as [->|Hne].
           ++ destruct Hrow as (_ & _ & _ & Hstatus'). congruence.
           ++ right. exists i. split; [lia|done].
    + intros Hloop host port. rewrite (IH _ Htable' Hloop host port). split.
      * intros [?|(i & Hi & Hrow)]; [by left|].
        right. exists i. split; [lia|done].
      * intros [?|(i & Hi & Hrow)]; [by left|].
        destruct (decide (i = length pre)) as [->|Hne].
        -- destruct Hrow as (Hhost & Honion' & _). congruence.
        -- right. exists i. split; [lia|done].
Qed.

Lemma scrape_loop_is_ok (int : string -> option Z) (table_data : list string)
    (pre tds : list string) (servers : list (string * Z)) :
  table_data = pre ++ tds ->
  match scrape_loop int table_data (length pre) tds servers with
  | Ok _ => forall i, (length pre <= i)%nat -> readable_row int table_data i
  | Raise e =>
      (e = IndexError \/ e = ValueError "invalid literal for int()") /\
      exists i, (length pre <= i)%nat /\ ~ readable_row int table_data i
  end.
Proof.
  revert pre servers. induction tds as [|td tds IH]; intros pre servers Htable.
  - intros i Hi td Htd. apply lookup_lt_Some in Htd. subst table_data.
    rewrite app_nil_r in Htd. lia.
  - assert (table_data !! length pre = Some td) as Htd.
    { subst table_data. by rewrite lookup_app_r, Nat.sub_diag by lia. }
    assert (table_data = (pre ++ [td]) ++ tds) as Htable'.
    { by rewrite <- app_assoc. }
    assert (length (pre ++ [td]) = S (length pre)) as Hlen.
    { rewrite length_app. simpl. lia. }
    specialize (IH (pre ++ [td])). rewrite Hlen in IH.
    assert (forall servers',
               readable_row int table_data (length pre) ->
               match scrape_loop int table_data (S (length pre)) tds servers' with
               | Ok _ =>
                   forall i, (length pre <= i)%nat -> readable_row int table_data i
               | Raise e =>
                   (e = IndexError \/ e = ValueError "invalid literal for int()") /\
                   exists i, (length pre <= i)%nat /\ ~ readable_row int table_data i
               end) as Hrest.
    { intros servers' Hhere. specialize (IH servers' Htable').
      destruct (scrape_loop int table_data (S (length pre)) tds servers').
      - intros i Hi. destruct (decide (i = length pre)) as [->|Hne]; [done|].
        apply IH. lia.
      - destruct IH as [He (i & Hi & Hrow)]. split; [done|].
        exists i. split; [lia|done]. }
    cbn [scrape_loop].
    destruct (str_in ".onion" td) eqn:Honion.
    + destruct (table_data !! (length pre + 1)%nat) as [port_text|] eqn:Hport.
      2:{ split; [by left|]. exists (length pre). split; [lia|].
          intros Hrow. destruct (Hrow td Htd Honion) as [(? & ? & ? & _) _].
          congruence. }
      destruct (int port_text) as [port|] eqn:Hint.
      2:{ split; [by right|]. exists (length pre). split; [lia|].
          intros Hrow. destruct (Hrow td Htd Honion) as [(? & ? & ? & ?) _].
          congruence. }
      destruct (table_data !! (length pre + 7)%nat) as [status|] eqn:Hstatus.
      2:{ split; [by left|]. exists (length pre). split; [lia|].
          intros Hrow. destruct (Hrow td Htd Honion) as [_ [? ?]].
          congruence. }
      apply Hrest. intros td' _ _. split; [by exists port_text, port|].
      by rewrite Hstatus.
    + apply Hrest. intros td' Htd' Honion'. congruence.
Qed.

Lemma scrape_onion_servers_readable (int : string -> option Z)
    (table_data : list string) :
  match scrape_onion_servers int table_data with
  | Ok _ => forall i, readable_row int table_data i
  | Raise e =>
      (e = IndexError \/ e = ValueError "invalid literal for int()") /\
      exists i, ~ readable_row int table_data i
  end.
Proof.
  pose proof (scrape_loop_is_ok int table_data [] table_data [] eq_refl) as H.
  unfold scrape_onion_servers. change (length (@nil string)) with 0%nat in H.
  destruct (scrape_loop int table_data 0 table_data []).
  - intros i. apply H. lia.
  - destruct H as [He (i & _ & Hrow)]. split; [done|]. by exists i.
Qed.

(** [scrape_onion_servers] returns a list exactly when every cell that
    names an onion host is followed by a cell that reads as a number and
    has a seventh cell after it; otherwise it raises [IndexError] or
    [ValueError], whatever the rows before held. *)
Theorem scrape_onion_servers_outcome (int : string -> option Z)
    (table_data : list string) :
  match scrape_onion_servers int table_data with
  | Ok _ => forall i, readable_row int table_data i
  | Raise e =>
      (e = IndexError \/ e = ValueError "invalid literal for int()") /\
      exists i, ~ readable_row int table_data i
  end.
Proof.
  pose proof (scrape_loop_is_ok int table_data [] table_data [] eq_refl) as H.
  unfold scrape_onion_servers. change (length (@nil string)) with 0%nat in H.
  destruct (scrape_loop int table_data 0 table_data []).
  - intros i. apply H. lia.
  - destruct H as [He (i & _ & Hrow)]. split; [done|]. by exists i.
Qed.

(** The servers [scrape_onion_servers] returns are those of the rows that
    read open, each with the number its port cell reads as, and every
    host returned holds [.onion]. *)
Theorem scrape_onion_servers_open_rows (int : string -> option Z)
    (table_data : list string) (servers : list (string * Z)) :
  scrape_onion_servers int table_data = Ok servers ->
  forall host port,
    ((host, port) ∈ servers <-> exists i, open_row int table_data i host port) /\
    ((host, port) ∈ servers ->
     exists pre post, host = pre +:+ ".onion" +:+ post).
Proof.
  intros Hscrape host port.
  pose proof (scrape_loop_Ok int table_data [] table_data [] servers eq_refl
                Hscrape host port) as H.
  assert ((host, port) ∈ servers <-> exists i, open_row int table_data i host port)
    as Hiff.
  { rewrite H. split.
    - intros [Hin|(i & _ & Hrow)]; [by apply elem_of_nil in Hin|by exists i].
    - intros [i Hrow]. right. exists i. split; [simpl; lia|done]. }
  split; [done|]. intros Hin. apply Hiff in Hin as (i & _ & Honion & _).
  by apply str_in_app.
Qed.

Lemma scrape_onion_servers_open_rows_witness :
  scrape_onion_servers bench_int bench_table = Ok [("a.onion", 50001)] /\
  (("a.onion", 50001) ∈ [("a.onion", 50001)] <->
   exists i, open_row bench_int bench_table i "a.onion" 50001) /\
  (("a.onion", 50001) ∈ [("a.onion", 50001)] ->
   exists pre post, "a.onion" = pre +:+ ".onion" +:+ post).
Proof.
  split; [reflexivity|].
  exact (scrape_onion_servers_open_rows bench_int bench_table
           [("a.onion", 50001)] eq_refl "a.onion" 50001).
Defined.

(** An onion host in the last seven cells of the page makes the whole
    scrape raise, also when the rows before it read open. *)
Theorem scrape_onion_servers_short_last_row (int : string -> option Z)
    (table_data : list string) (i : nat) (td : string) :
  table_data !! i = Some td ->
  str_in ".onion" td = true ->
  (length table_data <= i + 7)%nat ->
  exists e,
    scrape_onion_servers int table_data = Raise e /\
    (e = IndexError \/ e = ValueError "invalid literal for int()").
Proof.
  intros Htd Honion Hlen.
  pose proof (scrape_onion_servers_readable int table_data) as H.
  destruct (scrape_onion_servers int table_data) as [servers|e].
  - destruct (H i td Htd Honion) as [_ [status Hstatus]].
    apply lookup_lt_Some in Hstatus. lia.
  - exists e. split; [done|]. by destruct H.
Qed.

Lemma scrape_onion_servers_short_last_row_witness :
  exists e,
    scrape_onion_servers bench_int (bench_table ++ ["c.onion"; "50003"])
    = Raise e /\
    (e = IndexError \/ e = ValueError "invalid literal for int()").
Proof.
  apply (scrape_onion_servers_short_last_row bench_int
           (bench_table ++ ["c.onion"; "50003"]) 16 "c.onion").
  - reflexivity.
  - reflexivity.
  - simpl. lia.
Defined.

(** With a shuffle that only reorders, [get_random_onion] returns a server
    of a row that reads open, and fails with the message of its assertion
    exactly when the page could be read and no row reads open. *)
Theorem get_random_onion_open_row
    (shuffle : list (string * Z) -> list (string * Z))
    (int : string -> option Z) (table_data : list string) :
  (forall l, shuffle l ≡ₚ l) ->
  match get_random_onion shuffle int table_data with
  | Ok (host, port) => exists i, open_row int table_data i host port
  | Raise e =>
      match scrape_onion_servers int table_data with
      | Ok servers =>
          e = AssertionError "No electrum servers found!" /\ servers = [] /\
          forall i host port, ~ open_row int table_data i host port
      | Raise e' => e = e'
      end
  end.
Proof.
  intros Hshuffle. unfold get_random_onion.
  destruct (scrape_onion_servers int table_data) as [servers|e] eqn:Hscrape;
    [|done].
  cbn [mbind result_bind].
  destruct servers as [|server servers].
  - split; [done|]. split; [done|]. intros i host port Hrow.
    pose proof (scrape_loop_Ok int table_data [] table_data [] [] eq_refl
                  Hscrape host port) as H.
    assert ((host, port) ∈ @nil (string * Z)) as Hin.
    { apply H. right. exists i. split; [simpl; lia|done]. }
    by apply elem_of_nil in Hin.
  - destruct (last (shuffle (server :: servers))) as [[host port]|] eqn:Hlast.
    + apply last_Some_elem_of in Hlast. rewrite Hshuffle in Hlast.
      pose proof (scrape_loop_Ok int table_data [] table_data [] _ eq_refl
                    Hscrape host port) as H.
      apply H in Hlast as [Hin|(i & _ & Hrow)]; [by apply elem_of_nil in Hin|].
      by exists i.
    + apply last_None in Hlast.
      pose proof (Hshuffle (server :: servers)) as Hperm.
      rewrite Hlast in Hperm. by apply Permutation_nil_cons in Hperm.
Qed.

Lemma get_random_onion_open_row_witness :
  (forall l : list (string * Z), reverse l ≡ₚ l) /\
  exists i, open_row bench_int bench_table i "a.onion" 50001.
Proof.
  split; [apply reverse_Permutation|].
  exact (get_random_onion_open_row reverse bench_int bench_table
           reverse_Permutation).
Defined.

(** ** The start of [main] *)

(** Once the two discoveries of [main] have returned, each chain has a
    next unused key, the change chain's discovery has left the table of
    the spend chain as the first one made it, and printing the wallet
    does not raise. *)
Theorem main_discover_both_chains_ready {keys : KeyTree} {lib : Pycoin}
    (fuel : nat) (srv : Server) (w w' : Wallet) :
  main_discover fuel srv w = Some (Ok w') ->
  exists w1 i j,
    discover_keys fuel srv false w = Some (Ok w1) /\
    spend_indicies w' = spend_indicies w1 /\
    get_next_unused_key w' false = Some (get_key i false) /\
    get_next_unused_key w' true = Some (get_key j true) /\
    forall (repr : Repr) (chain : Chain),
    exists body,
      wallet_str chain w'
      = Ok (body +:+ nl +:+ "Your current address: "
              +:+ address (get_key i false)).
Proof.
  unfold main_discover.
  destruct (discover_keys fuel srv false w) as [[w1|e]|] eqn:Hspend; [|done..].
  intros Hchange. exists w1.
  apply discover_keys_Ok in Hspend as (l1 & k1 & Ht1 & _).
  apply discover_keys_Ok in Hchange as (l2 & k2 & Ht2 & _ & Hother & _).
  cbn [negb indicies] in Hother.
  assert (false ∈ indicies w' false) as Hin1.
  { cbn [indicies]. rewrite Hother. cbn [indicies] in Ht1.
    rewrite Ht1, !elem_of_app. right. right.
    apply elem_of_replicate. split; [done|]. unfold _GAP_LIMIT. lia. }
  assert (false ∈ indicies w' true) as Hin2.
  { rewrite Ht2, !elem_of_app. right. right.
    apply elem_of_replicate. split; [done|]. unfold _GAP_LIMIT. lia. }
  destruct (get_next_unused_key_is_Some w' false Hin1) as (i & Hkey1 & _).
  destruct (get_next_unused_key_is_Some w' true Hin2) as (j & Hkey2 & _).
  exists i, j. split; [done|]. split; [exact Hother|].
  split; [exact Hkey1|]. split; [exact Hkey2|].
  intros repr chain. exact (wallet_str_Ok chain w' _ Hkey1).
Qed.

Lemma main_discover_both_chains_ready_witness :
  exists w',
    @main_discover bench_keys bench_pycoin 3 server_2_5 new_wallet
    = Some (Ok w') /\
    length (spend_indicies w') = 40%nat /\
    length (change_indicies w') = 20%nat /\
    exists w1 i j,
      @discover_keys bench_keys bench_pycoin 3 server_2_5 false new_wallet
      = Some (Ok w1) /\
      spend_indicies w' = spend_indicies w1 /\
      get_next_unused_key w' false
      = Some (get_key i false) /\
      get_next_unused_key w' true
      = Some (get_key j true) /\
      forall (repr : Repr) (chain : Chain),
      exists body,
        @wallet_str bench_keys repr chain w'
        = Ok (body +:+ nl +:+ "Your current address: "
                +:+ @address bench_keys (get_key i false)).
Proof.
  destruct (@main_discover bench_keys bench_pycoin 3 server_2_5 new_wallet)
    as [[w'|e]|] eqn:Hmain; [|by vm_compute in Hmain..].
  exists w'. split; [reflexivity|].
  split; [by vm_compute in Hmain; injection Hmain as <-|].
  split; [by vm_compute in Hmain; injection Hmain as <-|].
  exact (@main_discover_both_chains_ready bench_keys bench_pycoin 3 server_2_5
           new_wallet w' Hmain).
Defined.

(** ** Printing on news *)

(** A turn of [print_loop] that returns leaves the flag down and changes
    nothing else, so the next turn prints nothing; and the turn after the
    discovery of the spend chain prints the wallet, once. *)
Theorem print_loop_prints_once {keys : KeyTree} {lib : Pycoin} {repr : Repr}
    (chain : Chain) (w : Wallet) :
  (forall out w',
      print_loop_turn chain w = Ok (out, w') ->
      w' = set_new_history false w /\
      (out = [] <-> new_history w = false) /\
      print_loop_turn chain w' = Ok ([], w')) /\
  (forall fuel srv w0,
      discover_keys fuel srv false w0 = Some (Ok w) ->
      exists s, print_loop_turn chain w = Ok ([s], set_new_history false w)).
Proof.
  split.
  - intros out w'. unfold print_loop_turn.
    destruct (new_history w) eqn:Hflag.
    + destruct (wallet_str chain w) as [s|e]; [|done].
      cbn [mbind result_bind]. intros [= <- <-]. done.
    + intros [= <- <-]. rewrite Hflag. split; [|done].
      destruct w. simpl in Hflag. by subst.
  - intros fuel srv w0 Hdisc. unfold print_loop_turn.
    apply discover_keys_Ok in Hdisc as (l & k & Ht & _ & _ & ->).
    assert (false ∈ indicies w false) as Hin.
    { rewrite Ht, !elem_of_app. right. right.
      apply elem_of_replicate. split; [done|]. unfold _GAP_LIMIT. lia. }
    destruct (get_next_unused_key_is_Some w false Hin) as (i & Hkey & _).
    destruct (wallet_str_Ok chain w _ Hkey) as [body ->].
    cbn [mbind result_bind]. by eexists.
Qed.
